(** * mil_ros_tools.geometry_helpers: a shallow embedding and its properties

    The Python module [geometry_helpers.py] is a collection of small NumPy
    routines on 3-vectors, quaternions stored as [x, y, z, w], and 3x3 / 4x4
    matrices.  This development embeds those routines as Rocq functions and
    states what they compute.

    Arrays are lists ([list T] for one axis, [list (list T)] for two), Python
    exceptions are values of [result], and the element type is a parameter
    described by the class [Scalar].  Two instances are provided:

    - [Scalar_R]: exact real arithmetic, the reading under which the algebraic
      statements (determinants, norms, dot products) are made; no operation
      rounds, and storing into a [float32] array changes nothing;
    - [Scalar_f64]: IEEE-754 binary64 as computed by the kernel's primitive
      floats, with the cast to single precision written out, the reading under
      which special values (NaN, infinities) and [dtype=np.float32] are
      observable.

    Statements about all inputs that rest on algebra are made in the first
    reading; the second one is used to run the code on given inputs and
    wherever a statement is about a cast or a special value.

    The file is organised as the Python code is: the NumPy operations the
    module calls, the functions of [tf.transformations] it imports
    (module [trans]), the routines themselves (module [geometry_helpers]),
    and the same routines over a store of mutable buffers (module [InPlace]),
    followed by the properties.

    [random_pose] draws random numbers: it is embedded over the store only,
    with the numbers drawn as parameters, and the helper of [msg_helpers] it
    ends with, which is not among the sources, is modelled from the
    specification. *)

From Stdlib Require Import List Bool ZArith Lia.
From Stdlib Require Import Floats.
From Stdlib Require Import Reals Lra Psatz RNsatz.
Import ListNotations.

Set Implicit Arguments.

(** ** Exceptions *)

Inductive exn : Type :=
| AssertionError
| IndexError
| ValueError
| TypeError.

Inductive result (A : Type) : Type :=
| Ok (a : A)
| Raise (e : exn).

Arguments Ok {A} a.
Arguments Raise {A} e.

Definition bind {A B : Type} (m : result A) (k : A -> result B) : result B :=
  match m with
  | Ok a => k a
  | Raise e => Raise e
  end.

Notation "x <- m ;; k" := (bind m (fun x => k))
  (at level 61, m at next level, right associativity).

(** ** Scalars *)

(** The arithmetic NumPy performs on array elements and on [np.float64]
    scalars.  [s_f32] is the value obtained by storing a number in a
    [float32] array and reading it back. *)
Class Scalar (T : Type) : Type := {
  s_of_Z : Z -> T;
  s_add : T -> T -> T;
  s_sub : T -> T -> T;
  s_mul : T -> T -> T;
  s_div : T -> T -> T;
  s_opp : T -> T;
  s_abs : T -> T;
  s_sqrt : T -> T;
  s_ltb : T -> T -> bool;
  s_leb : T -> T -> bool;
  s_f32 : T -> T
}.

(** [np.arccos], available where the element type has it. *)
Class Trig (T : Type) : Type := {
  s_arccos : T -> T
}.

(** [math.sin] and [math.cos], available where the element type has them. *)
Class Circular (T : Type) : Type := {
  s_sin : T -> T;
  s_cos : T -> T
}.

(** [math.atan2(y, x)], available where the element type has it. *)
Class Arctan2 (T : Type) : Type := {
  s_arctan2 : T -> T -> T
}.

(** [math.pi], available where the element type has it. *)
Class Pi (T : Type) : Type := {
  s_pi : T
}.

Declare Scope num_scope.
Delimit Scope num_scope with num.
Infix "+" := s_add : num_scope.
Infix "-" := s_sub : num_scope.
Infix "*" := s_mul : num_scope.
Infix "/" := s_div : num_scope.
Notation "- x" := (s_opp x) : num_scope.
Infix "<?" := s_ltb : num_scope.
Infix "<=?" := s_leb : num_scope.
Notation "# z" := (s_of_Z z%Z) (at level 1, format "# z") : num_scope.

(** *** Exact reals

    Comparisons are decided classically.  Division is that of [R], total
    with an inverse of 0 that carries no meaning: statements that depend on a
    quotient assume its denominator is not 0. *)

Definition Rltb (x y : R) : bool := if Rlt_dec x y then true else false.
Definition Rleb (x y : R) : bool := if Rle_dec x y then true else false.

#[export] Instance Scalar_R : Scalar R := {|
  s_of_Z := IZR;
  s_add := Rplus;
  s_sub := Rminus;
  s_mul := Rmult;
  s_div := Rdiv;
  s_opp := Ropp;
  s_abs := Rabs;
  s_sqrt := R_sqrt.sqrt;
  s_ltb := Rltb;
  s_leb := Rleb;
  s_f32 := fun x => x
|}.

#[export] Instance Trig_R : Trig R := {| s_arccos := acos |}.

(** The angle of the point [(x, y)], in [(-PI, PI]]; [0] at the origin.
    (The reals have one zero: the results [-PI] and [-0.0] that binary64
    gives for a negative zero [y] are not modelled.) *)
Definition Ratan2 (y x : R) : R :=
  if Rlt_dec 0 x then atan (y / x)
  else if Rlt_dec x 0 then
    if Rle_dec 0 y then (atan (y / x) + PI)%R else (atan (y / x) - PI)%R
  else if Rlt_dec 0 y then (PI / 2)%R
  else if Rlt_dec y 0 then (- (PI / 2))%R
  else 0%R.

#[export] Instance Arctan2_R : Arctan2 R := {| s_arctan2 := Ratan2 |}.

#[export] Instance Circular_R : Circular R := {| s_sin := sin; s_cos := cos |}.

#[export] Instance Pi_R : Pi R := {| s_pi := PI |}.

(** *** IEEE-754 binary64 *)

(** Integer literals, rounded to nearest even. *)
Definition f64_of_Z (z : Z) : float :=
  SF2Prim (binary_normalize prec emax z 0%Z false).

(** Conversion to binary32 and back (round to nearest even, overflow to an
    infinity, gradual underflow): what [dtype=np.float32] does to a double. *)
Definition f64_to_f32 (x : float) : float :=
  match Prim2SF x with
  | S754_finite s m e =>
      SF2Prim (binary_normalize 24 128 (cond_Zopp s (Zpos m)) e s)
  | _ => x
  end.

#[export] Instance Scalar_f64 : Scalar float := {|
  s_of_Z := f64_of_Z;
  s_add := PrimFloat.add;
  s_sub := PrimFloat.sub;
  s_mul := PrimFloat.mul;
  s_div := PrimFloat.div;
  s_opp := PrimFloat.opp;
  s_abs := PrimFloat.abs;
  s_sqrt := PrimFloat.sqrt;
  s_ltb := PrimFloat.ltb;
  s_leb := PrimFloat.leb;
  s_f32 := f64_to_f32
|}.

(** ** List helpers shared by the array operations *)

Fixpoint zip_with {A B C : Type} (f : A -> B -> C) (l1 : list A) (l2 : list B)
  : list C :=
  match l1, l2 with
  | a :: l1', b :: l2' => f a b :: zip_with f l1' l2'
  | _, _ => []
  end.

(** [update i f l] applies [f] to the element at index [i], if there is one. *)
Fixpoint update {A : Type} (i : nat) (f : A -> A) (l : list A) : list A :=
  match l, i with
  | [], _ => []
  | a :: l', O => f a :: l'
  | a :: l', S i' => a :: update i' f l'
  end.

(** [a[i]] for a non-negative index. *)
Definition getitem {A : Type} (l : list A) (i : nat) : result A :=
  match nth_error l i with
  | Some a => Ok a
  | None => Raise IndexError
  end.

(** [A[i, j]]. *)
Definition getitem2 {A : Type} (M : list (list A)) (i j : nat) : result A :=
  row <- getitem M i ;;
  getitem row j.

(** Broadcasting of an axis of length 1 or 3 against a target of length 3. *)
Definition broadcast3 {A : Type} (l : list A) : result (list A) :=
  match l with
  | [a] => Ok [a; a; a]
  | [_; _; _] => Ok l
  | _ => Raise ValueError
  end.

Fixpoint map_result {A B : Type} (f : A -> result B) (l : list A)
  : result (list B) :=
  match l with
  | [] => Ok []
  | a :: l' =>
      b <- f a ;;
      bs <- map_result f l' ;;
      Ok (b :: bs)
  end.

(** ** NumPy operations used by the module *)

Section Numpy.
Context {T : Type} {ST : Scalar T}.
Local Open Scope num_scope.

(** Decimal literals [n / d], e.g. [1e-4] is [lit 1 10000]. *)
Definition lit (n d : Z) : T := s_of_Z n / s_of_Z d.

(** [np.dot] of two one-axis arrays of the same length. *)
Definition dot (a b : list T) : T :=
  fold_left s_add (zip_with s_mul a b) #0.

(** [np.linalg.norm] of a one-axis array. *)
Definition norm (v : list T) : T := s_sqrt (dot v v).

(** [v * k] and [v / k] for an array and a scalar. *)
Definition vscale (v : list T) (k : T) : list T := map (fun x => x * k) v.
Definition vdiv (v : list T) (k : T) : list T := map (fun x => x / k) v.

(** [np.cross] of two 3-vectors.  Other lengths do not reach the end of
    [make_rotation].  Two 2-vectors give a 0-d array, on which [len] in
    [skew_symmetric_cross], the first use of the result that can fail,
    raises [TypeError]; any other pair of lengths is rejected with
    [ValueError], by [np.cross] or by [np.dot] two lines below. *)
Definition cross (a b : list T) : result (list T) :=
  match a, b with
  | [a0; a1; a2], [b0; b1; b2] =>
      Ok [a1 * b2 - a2 * b1; a2 * b0 - a0 * b2; a0 * b1 - a1 * b0]
  | [_; _], [_; _] => Raise TypeError
  | _, _ => Raise ValueError
  end.

(** [np.isclose(a, b, atol=atol)] with the default [rtol=1e-5] and a finite
    [b]: [abs(a - b) <= atol + rtol * abs(b)]. *)
Definition isclose (a b atol : T) : bool :=
  s_abs (a - b) <=? atol + lit 1 100000 * s_abs b.

(** [np.eye(3)] and [np.zeros((r, c))]. *)
Definition eye3 : list (list T) :=
  [[#1; #0; #0]; [#0; #1; #0]; [#0; #0; #1]].
Definition zeros (r c : nat) : list (list T) := repeat (repeat #0 c) r.

(** Element-wise sum of two matrices and product of a matrix by a scalar. *)
Definition madd (A B : list (list T)) : list (list T) :=
  zip_with (zip_with s_add) A B.
Definition mscale (A : list (list T)) (k : T) : list (list T) :=
  map (map (fun x => x * k)) A.

(** Single-precision arrays: every operation rounds to [float32].  The
    sums are taken in index order; the library routine NumPy calls for a
    matrix product may associate them differently, which can change the last
    bit of an entry. *)
Definition dot32 (a b : list T) : T :=
  fold_left (fun acc p => s_f32 (acc + p))
            (zip_with (fun x y => s_f32 (x * y)) a b) (s_f32 #0).
Definition column (j : nat) (B : list (list T)) : list T :=
  map (fun row => nth j row #0) B.
Definition ncols (B : list (list T)) : nat :=
  match B with
  | row :: _ => length row
  | [] => O
  end.
(** [np.linalg.matrix_power(A, 2)] on a [float32] array is [A @ A]. *)
Definition matmul32 (A B : list (list T)) : list (list T) :=
  map (fun row => map (fun j => dot32 row (column j B)) (seq 0 (ncols B))) A.
(** A [float32] array times an [np.float64] scalar stays [float32]. *)
Definition mscale32 (A : list (list T)) (k : T) : list (list T) :=
  map (map (fun x => s_f32 (x * s_f32 k))) A.

(** Matrix product, transpose and matrix-vector product in the element
    type, used to state what the matrices returned are. *)
Definition matmul (A B : list (list T)) : list (list T) :=
  map (fun row => map (fun j => dot row (column j B)) (seq 0 (ncols B))) A.
Definition transpose (M : list (list T)) : list (list T) :=
  map (fun j => column j M) (seq 0 (ncols M)).
Definition matvec (M : list (list T)) (x : list T) : list T :=
  map (fun row => dot row x) M.

(** [np.linalg.det] of a 3x3 matrix (cofactor expansion along row 0). *)
Definition det3 (M : list (list T)) : T :=
  match M with
  | [[a; b; c]; [d; e; f]; [g; h; i]] =>
      a * (e * i - f * h) - b * (d * i - f * g) + c * (d * h - e * g)
  | _ => #0
  end.

(** [M[i, j] *= k]. *)
Definition imul_item (M : list (list T)) (i j : nat) (k : T)
  : result (list (list T)) :=
  _ <- getitem2 M i j ;;
  Ok (update i (update j (fun x => x * k)) M).

(** [M[:, j] *= k]: the column index is checked against the second axis. *)
Definition imul_column (M : list (list T)) (j : nat) (k : T)
  : result (list (list T)) :=
  if (j <? ncols M)%nat
  then Ok (map (update j (fun x => x * k)) M)
  else Raise IndexError.

(** [v[i:] *= k]. *)
Definition imul_from (i : nat) (k : T) (v : list T) : list T :=
  firstn i v ++ map (fun x => x * k) (skipn i v).

(** [M[:3, :3] = R], [M[i, :3] = t] and [M[i, j] = x].  The block assigned
    is broadcast along both axes; rows of unequal lengths are no array of
    two axes and are rejected. *)
Definition set_block33 (M R : list (list T)) : result (list (list T)) :=
  rows <- broadcast3 R ;;
  rows' <- map_result broadcast3 rows ;;
  if forallb (fun row => Nat.eqb (length row) (length (hd [] R))) R then
    Ok (zip_with (fun new old => new ++ skipn 3 old) rows' (firstn 3 M)
        ++ skipn 3 M)
  else Raise ValueError.
Definition set_row3 (M : list (list T)) (i : nat) (t : list T)
  : result (list (list T)) :=
  _ <- getitem M i ;;
  t' <- broadcast3 t ;;
  Ok (update i (fun old => t' ++ skipn 3 old) M).
Definition setitem2 (M : list (list T)) (i j : nat) (x : T)
  : result (list (list T)) :=
  _ <- getitem2 M i j ;;
  Ok (update i (update j (fun _ => x)) M).

(** [np.outer] of two one-axis arrays and [np.identity(n)]. *)
Definition outer (a b : list T) : list (list T) :=
  map (fun x => map (fun y => x * y) b) a.
Definition identity (n : nat) : list (list T) :=
  map (fun i => map (fun j => if Nat.eqb i j then #1 else #0) (seq 0 n))
      (seq 0 n).

End Numpy.

(** ** tf.transformations (the ROS library the module imports as [trans]) *)

Module trans.
Section Transformations.
Context {T : Type} {ST : Scalar T}.
Local Open Scope num_scope.

(** [trans.quaternion_multiply(quaternion1, quaternion0)]: the Hamilton
    product on [x, y, z, w] quaternions; both arguments are unpacked into
    exactly four names. *)
Definition quaternion_multiply (quaternion1 quaternion0 : list T)
  : result (list T) :=
  match quaternion0, quaternion1 with
  | [x0; y0; z0; w0], [x1; y1; z1; w1] =>
      Ok [ x1 * w0 + y1 * z0 - z1 * y0 + w1 * x0;
           (- x1) * z0 + y1 * w0 + z1 * x0 + w1 * y0;
           x1 * y0 - y1 * x0 + z1 * w0 + w1 * z0;
           (- x1) * x0 - y1 * y0 - z1 * z0 + w1 * w0 ]
  | _, _ => Raise ValueError
  end.

(** [trans.unit_vector(data)] for a one-axis array: a copy of [data] divided
    by [sqrt(dot(data, data))]. *)
Definition unit_vector (data : list T) : list T :=
  vdiv data (s_sqrt (dot data data)).

(** [trans.quaternion_matrix(quaternion)]: the homogeneous rotation matrix of
    an [x, y, z, w] quaternion.  The library takes the first four components,
    returns the identity when their squared norm is below
    [_EPS = 4 * finfo(float).eps = 2^-50], and otherwise scales the
    quaternion by [sqrt(2 / nq)] before it reads the products
    [q[i, j]] off [numpy.outer(q, q)]. *)
Definition quaternion_matrix (quaternion : list T) : result (list (list T)) :=
  let q := firstn 4 quaternion in
  let nq := dot q q in
  if nq <? lit 4 4503599627370496 then
    Ok (identity 4)
  else
    let q := vscale q (s_sqrt (#2 / nq)) in
    let q := outer q q in
    q11 <- getitem2 q 1 1 ;;
    q22 <- getitem2 q 2 2 ;;
    q01 <- getitem2 q 0 1 ;;
    q23 <- getitem2 q 2 3 ;;
    q02 <- getitem2 q 0 2 ;;
    q13 <- getitem2 q 1 3 ;;
    q00 <- getitem2 q 0 0 ;;
    q12 <- getitem2 q 1 2 ;;
    q03 <- getitem2 q 0 3 ;;
    Ok [ [#1 - q11 - q22; q01 - q23; q02 + q13; #0];
         [q01 + q23; #1 - q00 - q22; q12 - q03; #0];
         [q02 - q13; q12 + q03; #1 - q00 - q11; #0];
         [#0; #0; #0; #1] ].

(** [trans.quaternion_from_euler(ai, aj, ak)] with the default axes
    ['sxyz']: first axis 0, no parity, no repetition, static frame, so
    [i, j, k = 0, 1, 2] and none of the optional swaps or sign changes
    applies. *)
Definition quaternion_from_euler {TC : Circular T} (ai aj ak : T) : list T :=
  let ai := ai / #2 in
  let aj := aj / #2 in
  let ak := ak / #2 in
  let ci := s_cos ai in
  let si := s_sin ai in
  let cj := s_cos aj in
  let sj := s_sin aj in
  let ck := s_cos ak in
  let sk := s_sin ak in
  let cc := ci * ck in
  let cs := ci * sk in
  let sc := si * ck in
  let ss := si * sk in
  [cj * sc - sj * cs; cj * ss + sj * cc; cj * cs - sj * sc; cj * cc + sj * ss].

(** [trans.euler_from_matrix(matrix)] with the default axes ['sxyz']
    ([i, j, k = 0, 1, 2], no repetition, no parity, static frame): the
    angles are read off the top-left 3x3 block, with a separate branch when
    [cy] does not exceed [_EPS] (gimbal lock), where the third angle is set
    to 0. *)
Definition euler_from_matrix {TA : Arctan2 T} (matrix : list (list T))
  : result (list T) :=
  let M := map (firstn 3) (firstn 3 matrix) in
  m00 <- getitem2 M 0 0 ;;
  m10 <- getitem2 M 1 0 ;;
  let cy := s_sqrt (m00 * m00 + m10 * m10) in
  if lit 4 4503599627370496 <? cy then
    m21 <- getitem2 M 2 1 ;;
    m22 <- getitem2 M 2 2 ;;
    let ax := s_arctan2 m21 m22 in
    m20 <- getitem2 M 2 0 ;;
    let ay := s_arctan2 (- m20) cy in
    m10 <- getitem2 M 1 0 ;;
    m00 <- getitem2 M 0 0 ;;
    let az := s_arctan2 m10 m00 in
    Ok [ax; ay; az]
  else
    m12 <- getitem2 M 1 2 ;;
    m11 <- getitem2 M 1 1 ;;
    let ax := s_arctan2 (- m12) m11 in
    m20 <- getitem2 M 2 0 ;;
    let ay := s_arctan2 (- m20) cy in
    let az := #0 in
    Ok [ax; ay; az].

(** [trans.random_quaternion()]: [rand] stands for the three numbers of
    [[0, 1)] that [numpy.random.rand(3)] hands out when the function is
    called without an argument. *)
Definition random_quaternion {TC : Circular T} {TP : Pi T} (rand : list T)
  : result (list T) :=
  rand0 <- getitem rand 0 ;;
  let r1 := s_sqrt (#1 - rand0) in
  rand0 <- getitem rand 0 ;;
  let r2 := s_sqrt rand0 in
  let pi2 := s_pi * #2 in
  rand1 <- getitem rand 1 ;;
  let t1 := pi2 * rand1 in
  rand2 <- getitem rand 2 ;;
  let t2 := pi2 * rand2 in
  Ok [s_sin t1 * r1; s_cos t1 * r1; s_sin t2 * r2; s_cos t2 * r2].

(** [trans.euler_from_quaternion(quaternion)], default axes. *)
Definition euler_from_quaternion {TA : Arctan2 T} (quaternion : list T)
  : result (list T) :=
  matrix <- quaternion_matrix quaternion ;;
  euler_from_matrix matrix.

End Transformations.
End trans.

(** ** geometry_msgs.msg: [Quaternion], a message with four named fields,
    and [Pose], a position of three numbers with an orientation *)

Module geometry_msgs.
Record Quaternion (T : Type) : Type := { x : T; y : T; z : T; w : T }.
Record Pose (T : Type) : Type := {
  position : T * T * T;
  orientation : Quaternion T
}.
End geometry_msgs.

(** ** geometry_helpers.py *)

Module geometry_helpers.
Section Routines.
Context {T : Type} {ST : Scalar T}.
Local Open Scope num_scope.

Definition rotate_vect_by_quat (v q : list T) : result (list T) :=
  q0 <- getitem q 0 ;;
  q1 <- getitem q 1 ;;
  q2 <- getitem q 2 ;;
  q3 <- getitem q 3 ;;
  let cq := [- q0; - q1; - q2; q3] in
  cq_v <- trans.quaternion_multiply cq v ;;
  v <- trans.quaternion_multiply cq_v q ;;
  let v := imul_from 1 #(-1) v in
  Ok (firstn 3 v).

Definition skew_symmetric_cross (a : list T) : result (list (list T)) :=
  match a with
  | [a0; a1; a2] =>
      Ok [ [s_f32 #0; s_f32 (- a2); s_f32 a1];
           [s_f32 a2; s_f32 #0; s_f32 (- a0)];
           [s_f32 (- a1); s_f32 a0; s_f32 #0] ]
  | _ => Raise AssertionError
  end.

Definition deskew (A : list (list T)) : result (list T) :=
  a21 <- getitem2 A 2 1 ;;
  a02 <- getitem2 A 0 2 ;;
  a10 <- getitem2 A 1 0 ;;
  Ok [s_f32 a21; s_f32 a02; s_f32 a10].

Definition normalize (vector : list T) : list T :=
  vdiv vector (norm vector).

(** The matrix of the last branch of [make_rotation]. *)
Definition rodrigues (skew_cross skew_squared : list (list T)) (c s : T)
  : list (list T) :=
  let normalization := (#1 - c) / (s * s) in
  madd (madd eye3 skew_cross) (mscale32 skew_squared normalization).

Definition make_rotation (vector_a vector_b : list T)
  : result (list (list T)) :=
  let unit_a := normalize vector_a in
  let unit_b := normalize vector_b in
  v <- cross unit_a unit_b ;;
  let s := norm v in
  let c := dot unit_a unit_b in
  skew_cross <- skew_symmetric_cross v ;;
  let skew_squared := matmul32 skew_cross skew_cross in
  if isclose c #1 (lit 1 10000) then
    Ok eye3
  else if isclose c (- #1) (lit 1 10000) then
    imul_item eye3 2 2 #(-1)
  else
    let R := rodrigues skew_cross skew_squared c s in
    if det3 R <? #0 then imul_column R 3 #(-1) else Ok R.

Definition compose_transformation (R : list (list T)) (t : list T)
  : result (list (list T)) :=
  let transformation := zeros 4 4 in
  transformation <- set_block33 transformation R ;;
  transformation <- set_row3 transformation 3 t ;;
  setitem2 transformation 3 3 #1.

(** For two arrays of the same length ([np.dot] rejects the others). *)
Definition project_pt_to_plane (point plane_normal : list T) : list T :=
  let dist := dot plane_normal point in
  zip_with s_sub point (map (fun n => dist * n) plane_normal).

Definition clip_norm (vector : list T) (lower_bound upper_bound : T)
  : list T :=
  let norm := norm vector in
  if (lower_bound <? norm) && (norm <? upper_bound) then
    vector
  else if norm <? lower_bound then
    vdiv (vscale vector lower_bound) norm
  else
    vdiv (vscale vector upper_bound) norm.

Definition quat_to_rotvec {TT : Trig T} (q : list T) : result (list T) :=
  if forallb (fun x => isclose x #0 (lit 1 100000000)) (firstn 3 q) then
    Ok [#0; #0; #0]
  else
    q3 <- getitem q 3 ;;
    let q := if q3 <? #0 then map s_opp q else q in
    let q := trans.unit_vector q in
    q3 <- getitem q 3 ;;
    let angle := s_arccos q3 * #2 in
    let norm := norm q in
    let axis := vdiv (firstn 3 q) norm in
    Ok (vscale axis angle).

Definition quaternion_matrix (q : list T) : result (list (list T)) :=
  mat_h <- trans.quaternion_matrix q ;;
  d <- getitem2 mat_h 3 3 ;;
  Ok (map (fun row => vdiv (firstn 3 row) d) (firstn 3 mat_h)).

Definition quat_to_euler {TA : Arctan2 T} (q : geometry_msgs.Quaternion T)
  : result (list T) :=
  euler_rot_vec <-
    trans.euler_from_quaternion
      [geometry_msgs.x q; geometry_msgs.y q; geometry_msgs.z q;
       geometry_msgs.w q] ;;
  e0 <- getitem euler_rot_vec 0 ;;
  e1 <- getitem euler_rot_vec 1 ;;
  e2 <- getitem euler_rot_vec 2 ;;
  Ok [e0; e1; e2].

Definition euler_to_quat {TC : Circular T} (rotvec : list T)
  : result (geometry_msgs.Quaternion T) :=
  r0 <- getitem rotvec 0 ;;
  r1 <- getitem rotvec 1 ;;
  r2 <- getitem rotvec 2 ;;
  let quat := trans.quaternion_from_euler r0 r1 r2 in
  q0 <- getitem quat 0 ;;
  q1 <- getitem quat 1 ;;
  q2 <- getitem quat 2 ;;
  q3 <- getitem quat 3 ;;
  Ok (geometry_msgs.Build_Quaternion q0 q1 q2 q3).

End Routines.
End geometry_helpers.

Import geometry_helpers.

(** ** The same routines over a store of array buffers

    NumPy arrays are mutable objects and slices of them are views onto the
    same buffer.  To speak about what a call does to the arrays of its caller,
    the routines are embedded a second time, statement by statement, in a
    state-and-exception monad over a store of buffers: every NumPy call that
    returns a new array allocates a buffer, an augmented assignment or a
    slice assignment writes into the buffer of its target. *)

Module InPlace.
Section Heap.
Context {T : Type} {ST : Scalar T}.
Local Open Scope num_scope.

Inductive ndarray : Type :=
| Vec (l : list T)
| Mat (m : list (list T))
| Msg (q : geometry_msgs.Quaternion T).

Definition heap : Type := list ndarray.

(** A one-axis array seen by the program: the elements [lo, hi) of a
    buffer.  Matrices are named by their buffer. *)
Record view : Type := View { buf : nat; lo : nat; hi : nat }.

Definition M (A : Type) : Type := heap -> result A * heap.

Definition ret {A : Type} (a : A) : M A := fun h => (Ok a, h).

Definition lift {A : Type} (r : result A) : M A := fun h => (r, h).

Definition mbind {A B : Type} (m : M A) (k : A -> M B) : M B :=
  fun h =>
    match m h with
    | (Ok a, h') => k a h'
    | (Raise e, h') => (Raise e, h')
    end.

Notation "x <~ m ;; k" := (mbind m (fun x => k))
  (at level 61, m at next level, right associativity).
Notation "m ;;; k" := (mbind m (fun _ => k))
  (at level 61, right associativity).

(** *** Buffers *)

Definition alloc (a : ndarray) : M nat :=
  fun h => (Ok (length h), h ++ [a]).

Definition window (v : view) (l : list T) : list T :=
  firstn (hi v - lo v) (skipn (lo v) l).

Definition get_vec (v : view) : M (list T) :=
  fun h =>
    match nth_error h (buf v) with
    | Some (Vec l) => (Ok (window v l), h)
    | _ => (Raise ValueError, h)
    end.

Definition get_mat (r : nat) : M (list (list T)) :=
  fun h =>
    match nth_error h r with
    | Some (Mat m) => (Ok m, h)
    | _ => (Raise ValueError, h)
    end.

(** The fields of a [Quaternion] message held in the store. *)
Definition get_msg (r : nat) : M (geometry_msgs.Quaternion T) :=
  fun h =>
    match nth_error h r with
    | Some (Msg q) => (Ok q, h)
    | _ => (Raise ValueError, h)
    end.

Definition new_vec (l : list T) : M view :=
  r <~ alloc (Vec l) ;;
  ret (View r 0 (length l)).

Definition new_mat (m : list (list T)) : M nat := alloc (Mat m).

(** Writing through a view: the window is replaced, the rest of the buffer
    stays. *)
Definition modify_vec (v : view) (f : list T -> list T) : M unit :=
  fun h =>
    match nth_error h (buf v) with
    | Some (Vec l) =>
        (Ok tt,
         update (buf v)
           (fun _ => Vec (firstn (lo v) l ++ f (window v l)
                          ++ skipn (lo v + length (window v l)) l)) h)
    | _ => (Raise ValueError, h)
    end.

Definition modify_mat (r : nat)
  (f : list (list T) -> result (list (list T))) : M unit :=
  fun h =>
    match nth_error h r with
    | Some (Mat m) =>
        match f m with
        | Ok m' => (Ok tt, update r (fun _ => Mat m') h)
        | Raise e => (Raise e, h)
        end
    | _ => (Raise ValueError, h)
    end.

(** *** NumPy on views *)

(** [v[a:b]] and [v[a:]]: views onto the buffer of [v]. *)
Definition slice (v : view) (a b : nat) : view :=
  View (buf v) (Nat.min (lo v + a) (hi v)) (Nat.min (lo v + b) (hi v)).
Definition slice_from (v : view) (a : nat) : view :=
  View (buf v) (Nat.min (lo v + a) (hi v)) (hi v).

Definition np_getitem (v : view) (i : nat) : M T :=
  l <~ get_vec v ;; lift (getitem l i).
Definition np_getitem2 (A : nat) (i j : nat) : M T :=
  m <~ get_mat A ;; lift (getitem2 m i j).
Definition np_array (l : list T) : M view := new_vec l.
Definition np_copy (v : view) : M view :=
  l <~ get_vec v ;; new_vec l.
Definition np_neg (v : view) : M view :=
  l <~ get_vec v ;; new_vec (map s_opp l).
Definition np_mul (v : view) (k : T) : M view :=
  l <~ get_vec v ;; new_vec (vscale l k).
Definition np_rmul (k : T) (v : view) : M view :=
  l <~ get_vec v ;; new_vec (map (fun n => k * n) l).
Definition np_div (v : view) (k : T) : M view :=
  l <~ get_vec v ;; new_vec (vdiv l k).
Definition np_sub (a b : view) : M view :=
  la <~ get_vec a ;; lb <~ get_vec b ;; new_vec (zip_with s_sub la lb).
Definition np_norm (v : view) : M T :=
  l <~ get_vec v ;; ret (norm l).
Definition np_dot (a b : view) : M T :=
  la <~ get_vec a ;; lb <~ get_vec b ;; ret (dot la lb).
Definition np_cross (a b : view) : M view :=
  la <~ get_vec a ;; lb <~ get_vec b ;;
  l <~ lift (cross la lb) ;; new_vec l.
Definition np_all_isclose (v : view) (b atol : T) : M bool :=
  l <~ get_vec v ;; ret (forallb (fun x => isclose x b atol) l).
Definition np_imul_from (v : view) (i : nat) (k : T) : M unit :=
  modify_vec (slice_from v i) (map (fun x => x * k)).
Definition np_idiv (v : view) (k : T) : M unit :=
  modify_vec v (map (fun x => x / k)).
Definition np_imul (v : view) (k : T) : M unit :=
  modify_vec v (map (fun x => x * k)).

Definition np_eye3 : M nat := new_mat eye3.
Definition np_zeros (r c : nat) : M nat := new_mat (zeros r c).
Definition np_madd (A B : nat) : M nat :=
  a <~ get_mat A ;; b <~ get_mat B ;; new_mat (madd a b).
Definition np_mscale32 (A : nat) (k : T) : M nat :=
  a <~ get_mat A ;; new_mat (mscale32 a k).
Definition np_matrix_power2 (A : nat) : M nat :=
  a <~ get_mat A ;; new_mat (matmul32 a a).
Definition np_det (A : nat) : M T :=
  a <~ get_mat A ;; ret (det3 a).
(** [np.random.uniform(low=low, high=high, size=3)]: [sample] stands for
    the three numbers of [[0, 1)] the generator hands out; [low] and [high]
    are read and broadcast, the result is a new array. *)
Definition np_random_uniform (low high : view) (sample : T * T * T)
  : M view :=
  l <~ get_vec low ;;
  h <~ get_vec high ;;
  l <~ lift (broadcast3 l) ;;
  h <~ lift (broadcast3 h) ;;
  let '(u0, u1, u2) := sample in
  new_vec
    (zip_with s_add l (zip_with s_mul (zip_with s_sub h l) [u0; u1; u2])).

(** [np.random.rand(3)]: a new array of the three numbers drawn. *)
Definition np_random_rand3 (sample : T * T * T) : M view :=
  let '(u0, u1, u2) := sample in new_vec [u0; u1; u2].

(** What [a[i]] is for an array of numbers: a number when [a] has one axis
    (or is a list), a one-element view onto the buffer of [a] when [a] has
    shape [(n, 1)]. *)
Inductive item : Type :=
| Num (x : T)
| Row (v : view).

Inductive layout : Type :=
| OneAxis
| Column.

Definition np_item (s : layout) (a : view) (i : nat) : M item :=
  match s with
  | OneAxis => x <~ np_getitem a i ;; ret (Num x)
  | Column =>
      l <~ get_vec a ;;
      lift (getitem l i) ;;;
      ret (Row (slice a i (S i)))
  end.

(** [x /= k]: a number is rebound to the quotient, an array is divided in
    place. *)
Definition idiv (x : item) (k : T) : M item :=
  match x with
  | Num n => ret (Num (n / k))
  | Row v => np_idiv v k ;;; ret (Row v)
  end.

(** The conversion to a float that [math.cos] and [math.sin] apply to their
    argument: an array of one element gives that element. *)
Definition to_float (x : item) : M T :=
  match x with
  | Num n => ret n
  | Row v =>
      l <~ get_vec v ;;
      match l with
      | [n] => ret n
      | _ => lift (Raise TypeError)
      end
  end.

Definition math_cos {TC : Circular T} (x : item) : M T :=
  a <~ to_float x ;; ret (s_cos a).
Definition math_sin {TC : Circular T} (x : item) : M T :=
  a <~ to_float x ;; ret (s_sin a).

Definition np_outer (a b : view) : M nat :=
  la <~ get_vec a ;; lb <~ get_vec b ;; new_mat (outer la lb).
Definition np_identity (n : nat) : M nat := new_mat (identity n).

(** *** tf.transformations on views *)

(** The product is a new array. *)
Definition quaternion_multiply (quaternion1 quaternion0 : view) : M view :=
  l1 <~ get_vec quaternion1 ;;
  l0 <~ get_vec quaternion0 ;;
  l <~ lift (trans.quaternion_multiply l1 l0) ;;
  new_vec l.

(** [unit_vector] copies its argument and divides the copy in place. *)
Definition unit_vector (data : view) : M view :=
  data <~ np_copy data ;;
  d <~ np_dot data data ;;
  np_idiv data (s_sqrt d) ;;;
  ret data.

(** [quaternion_matrix] copies the first four components of its argument,
    scales the copy in place and returns a new matrix. *)
Definition trans_quaternion_matrix (quaternion : view) : M nat :=
  q <~ np_copy (slice quaternion 0 4) ;;
  nq <~ np_dot q q ;;
  if nq <? lit 4 4503599627370496 then
    np_identity 4
  else
    np_imul q (s_sqrt (#2 / nq)) ;;;
    q <~ np_outer q q ;;
    q11 <~ np_getitem2 q 1 1 ;;
    q22 <~ np_getitem2 q 2 2 ;;
    q01 <~ np_getitem2 q 0 1 ;;
    q23 <~ np_getitem2 q 2 3 ;;
    q02 <~ np_getitem2 q 0 2 ;;
    q13 <~ np_getitem2 q 1 3 ;;
    q00 <~ np_getitem2 q 0 0 ;;
    q12 <~ np_getitem2 q 1 2 ;;
    q03 <~ np_getitem2 q 0 3 ;;
    new_mat [ [#1 - q11 - q22; q01 - q23; q02 + q13; #0];
              [q01 + q23; #1 - q00 - q22; q12 - q03; #0];
              [q02 - q13; q12 + q03; #1 - q00 - q11; #0];
              [#0; #0; #0; #1] ].

(** [quaternion_from_euler(ai, aj, ak)], default axes.  The three
    augmented assignments [ai /= 2.0] act on whatever the caller passed; the
    result is created by [numpy.empty((4, ))] and filled item by item, a new
    array that nothing reads before it is complete. *)
Definition quaternion_from_euler {TC : Circular T} (ai aj ak : item)
  : M view :=
  ai <~ idiv ai #2 ;;
  aj <~ idiv aj #2 ;;
  ak <~ idiv ak #2 ;;
  ci <~ math_cos ai ;;
  si <~ math_sin ai ;;
  cj <~ math_cos aj ;;
  sj <~ math_sin aj ;;
  ck <~ math_cos ak ;;
  sk <~ math_sin ak ;;
  let cc := ci * ck in
  let cs := ci * sk in
  let sc := si * ck in
  let ss := si * sk in
  np_array
    [cj * sc - sj * cs; cj * ss + sj * cc; cj * cs - sj * sc;
     cj * cc + sj * ss].

(** [euler_from_matrix] reads the matrix and returns a tuple of numbers;
    [euler_from_quaternion] builds the matrix first. *)
Definition euler_from_matrix {TA : Arctan2 T} (matrix : nat) : M (list T) :=
  m <~ get_mat matrix ;;
  lift (trans.euler_from_matrix m).

Definition euler_from_quaternion {TA : Arctan2 T} (quaternion : view)
  : M (list T) :=
  matrix <~ trans_quaternion_matrix quaternion ;;
  euler_from_matrix matrix.

(** [random_quaternion()]: the numbers drawn are a new array, and so is the
    result. *)
Definition random_quaternion {TC : Circular T} {TP : Pi T}
  (sample : T * T * T) : M view :=
  rand <~ np_random_rand3 sample ;;
  l <~ get_vec rand ;;
  q <~ lift (trans.random_quaternion l) ;;
  np_array q.

(** *** msg_helpers.py *)

(** Modelled from the spec: [numpy_quat_pair_to_pose] of [msg_helpers] is
    not among the sources; the specification has it as "an external
    pose-value constructor taking (position: 3 floats, orientation: 4-float
    quaternion)" that gives a pose value.  The two arrays are read. *)
Definition numpy_quat_pair_to_pose (np_translation np_quaternion : view)
  : M (geometry_msgs.Pose T) :=
  t <~ get_vec np_translation ;;
  q <~ get_vec np_quaternion ;;
  match t, q with
  | [t0; t1; t2], [q0; q1; q2; q3] =>
      ret (geometry_msgs.Build_Pose (t0, t1, t2)
             (geometry_msgs.Build_Quaternion q0 q1 q2 q3))
  | _, _ => lift (Raise TypeError)
  end.

(** *** geometry_helpers.py *)

Definition rotate_vect_by_quat (v q : view) : M view :=
  q0 <~ np_getitem q 0 ;;
  q1 <~ np_getitem q 1 ;;
  q2 <~ np_getitem q 2 ;;
  q3 <~ np_getitem q 3 ;;
  cq <~ np_array [- q0; - q1; - q2; q3] ;;
  cq_v <~ quaternion_multiply cq v ;;
  v <~ quaternion_multiply cq_v q ;;
  np_imul_from v 1 #(-1) ;;;
  w <~ np_copy v ;;
  ret (slice w 0 3).

Definition skew_symmetric_cross (a : view) : M nat :=
  l <~ get_vec a ;;
  m <~ lift (geometry_helpers.skew_symmetric_cross l) ;;
  new_mat m.

Definition deskew (A : nat) : M view :=
  a21 <~ np_getitem2 A 2 1 ;;
  a02 <~ np_getitem2 A 0 2 ;;
  a10 <~ np_getitem2 A 1 0 ;;
  np_array [s_f32 a21; s_f32 a02; s_f32 a10].

Definition normalize (vector : view) : M view :=
  n <~ np_norm vector ;;
  np_div vector n.

Definition make_rotation (vector_a vector_b : view) : M nat :=
  unit_a <~ normalize vector_a ;;
  unit_b <~ normalize vector_b ;;
  v <~ np_cross unit_a unit_b ;;
  s <~ np_norm v ;;
  c <~ np_dot unit_a unit_b ;;
  skew_cross <~ skew_symmetric_cross v ;;
  skew_squared <~ np_matrix_power2 skew_cross ;;
  if isclose c #1 (lit 1 10000) then
    np_eye3
  else if isclose c (- #1) (lit 1 10000) then
    R <~ np_eye3 ;;
    modify_mat R (fun m => imul_item m 2 2 #(-1)) ;;;
    ret R
  else
    let normalization := (#1 - c) / (s * s) in
    I <~ np_eye3 ;;
    IK <~ np_madd I skew_cross ;;
    K2n <~ np_mscale32 skew_squared normalization ;;
    R <~ np_madd IK K2n ;;
    d <~ np_det R ;;
    if d <? #0 then
      modify_mat R (fun m => imul_column m 3 #(-1)) ;;;
      ret R
    else ret R.

Definition compose_transformation (R : nat) (t : view) : M nat :=
  transformation <~ np_zeros 4 4 ;;
  r <~ get_mat R ;;
  modify_mat transformation (fun m => set_block33 m r) ;;;
  tl <~ get_vec t ;;
  modify_mat transformation (fun m => set_row3 m 3 tl) ;;;
  modify_mat transformation (fun m => setitem2 m 3 3 #1) ;;;
  ret transformation.

Definition project_pt_to_plane (point plane_normal : view) : M view :=
  dist <~ np_dot plane_normal point ;;
  scaled <~ np_rmul dist plane_normal ;;
  np_sub point scaled.

Definition clip_norm (vector : view) (lower_bound upper_bound : T)
  : M view :=
  norm <~ np_norm vector ;;
  if (lower_bound <? norm) && (norm <? upper_bound) then
    np_copy vector
  else if norm <? lower_bound then
    scaled <~ np_mul vector lower_bound ;;
    np_div scaled norm
  else
    scaled <~ np_mul vector upper_bound ;;
    np_div scaled norm.

Definition quat_to_rotvec {TT : Trig T} (q : view) : M view :=
  close <~ np_all_isclose (slice q 0 3) #0 (lit 1 100000000) ;;
  if close then
    np_array [#0; #0; #0]
  else
    q3 <~ np_getitem q 3 ;;
    q <~ (if q3 <? #0 then np_neg q else ret q) ;;
    q <~ unit_vector q ;;
    q3 <~ np_getitem q 3 ;;
    let angle := s_arccos q3 * #2 in
    norm <~ np_norm q ;;
    axis <~ np_div (slice q 0 3) norm ;;
    np_mul axis angle.

Definition quaternion_matrix (q : view) : M nat :=
  mat_h <~ trans_quaternion_matrix q ;;
  block <~ get_mat mat_h ;;
  d <~ np_getitem2 mat_h 3 3 ;;
  new_mat (map (fun row => vdiv (firstn 3 row) d) (firstn 3 block)).

(** [q] names a [Quaternion] message of the store; the list of its four
    fields is a new object. *)
Definition quat_to_euler {TA : Arctan2 T} (q : nat) : M view :=
  m <~ get_msg q ;;
  fields <~ np_array [geometry_msgs.x m; geometry_msgs.y m;
                      geometry_msgs.z m; geometry_msgs.w m] ;;
  euler_rot_vec <~ euler_from_quaternion fields ;;
  e0 <~ lift (getitem euler_rot_vec 0) ;;
  e1 <~ lift (getitem euler_rot_vec 1) ;;
  e2 <~ lift (getitem euler_rot_vec 2) ;;
  np_array [e0; e1; e2].

(** [rotvec] is an array of one axis (or a list), whose items are numbers,
    or an array of shape [(3, 1)], whose items are views onto it. *)
Definition euler_to_quat {TC : Circular T} (s : layout) (rotvec : view)
  : M (geometry_msgs.Quaternion T) :=
  r0 <~ np_item s rotvec 0 ;;
  r1 <~ np_item s rotvec 1 ;;
  r2 <~ np_item s rotvec 2 ;;
  quat <~ quaternion_from_euler r0 r1 r2 ;;
  q0 <~ np_getitem quat 0 ;;
  q1 <~ np_getitem quat 1 ;;
  q2 <~ np_getitem quat 2 ;;
  q3 <~ np_getitem quat 3 ;;
  ret (geometry_msgs.Build_Quaternion q0 q1 q2 q3).

(** [uniform] and [rand] stand for the numbers the generator hands out to
    [np.random.uniform] and to [random_quaternion]. *)
Definition random_pose {TC : Circular T} {TP : Pi T} (_min _max : view)
  (uniform rand : T * T * T) : M (geometry_msgs.Pose T) :=
  pos <~ np_random_uniform _min _max uniform ;;
  quat <~ random_quaternion rand ;;
  numpy_quat_pair_to_pose pos quat.

(** *** What a call leaves in place *)

(** The buffers of [h0] are all present in [h], with the same contents. *)
Definition unchanged (h0 h : heap) : Prop :=
  forall (r : nat) (a : ndarray),
    nth_error h0 r = Some a -> nth_error h r = Some a.

(** [h] is [h0] followed by the buffers allocated since. *)
Definition extends (h0 h : heap) : Prop := exists ext, h = h0 ++ ext.

(** A view or a matrix whose buffer did not exist in [h0]. *)
Definition fresh (h0 : heap) (v : view) : Prop := (length h0 <= buf v)%nat.
Definition fresh_ref (h0 : heap) (r : nat) : Prop := (length h0 <= r)%nat.
Definition any {A : Type} (a : A) : Prop := True.

(** An item that is a number, or a view onto a buffer that did not exist in
    [h0]. *)
Definition fresh_item (h0 : heap) (x : item) : Prop :=
  match x with
  | Num _ => True
  | Row v => fresh h0 v
  end.

(** The array a view shows in a store, and the array returned by a call. *)
Definition reads (h : heap) (v : view) (l : list T) : Prop :=
  exists b, nth_error h (buf v) = Some (Vec b) /\ window v b = l.

Definition value_of (p : result view * heap) : result (list T) :=
  match fst p with
  | Ok w => fst (get_vec w (snd p))
  | Raise e => Raise e
  end.

Definition matrix_of (p : result nat * heap) : result (list (list T)) :=
  match fst p with
  | Ok r => fst (get_mat r (snd p))
  | Raise e => Raise e
  end.

(** [keeps h0 Q m]: run from any store that extends [h0], the computation [m]
    ends in a store that still extends [h0], whether it returns or raises,
    and a returned value satisfies [Q]. *)
Definition keeps {A : Type} (h0 : heap) (Q : A -> Prop) (m : M A) : Prop :=
  forall h, extends h0 h ->
    extends h0 (snd (m h)) /\ forall a, fst (m h) = Ok a -> Q a.

End Heap.

Arguments ndarray T : clear implicits.
Arguments heap T : clear implicits.
Arguments M T A : clear implicits.

End InPlace.

(** ** Readings of the specification kept for comparison *)

Section AsSpecified.
Context {T : Type} {ST : Scalar T}.
Local Open Scope num_scope.

(** The rotation of a vector by a quaternion as the specification words it:
    the vector part of [cq * v * q] with its three components negated. *)
Definition rotate_vect_as_specified (v q : list T) : result (list T) :=
  q0 <- getitem q 0 ;;
  q1 <- getitem q 1 ;;
  q2 <- getitem q 2 ;;
  q3 <- getitem q 3 ;;
  let cq := [- q0; - q1; - q2; q3] in
  cq_v <- trans.quaternion_multiply cq v ;;
  p <- trans.quaternion_multiply cq_v q ;;
  Ok (map (fun x => x * #(-1)) (firstn 3 p)).

End AsSpecified.

(** The RotationMatrix invariant of the data model, in exact arithmetic:
    orthogonal with determinant [+1]. *)
Definition is_rotation (M : list (list R)) : Prop :=
  matmul (transpose M) M = eye3 /\ det3 M = 1%R.

(** [_EPS] of [tf.transformations] as a real, and the 3x3 matrix of the
    quaternion [(x, y, z, w)] with [k] standing for [2 / nq]. *)
Definition EPS : R := lit 4 4503599627370496.

Definition rotation_of (x y z w k : R) : list (list R) :=
  [ [1 - y * y * k - z * z * k; x * y * k - z * w * k; x * z * k + y * w * k];
    [x * y * k + z * w * k; 1 - x * x * k - z * z * k; y * z * k - x * w * k];
    [x * z * k - y * w * k; y * z * k + x * w * k; 1 - x * x * k - y * y * k]
  ]%R.

(** The rotation matrix of the angles [(r, p, y)]: a turn by [r] about x,
    then by [p] about y, then by [y] about z, all about fixed axes. *)
Definition euler_matrix (r p y : R) : list (list R) :=
  [ [cos y * cos p; cos y * sin p * sin r - sin y * cos r;
     cos y * sin p * cos r + sin y * sin r];
    [sin y * cos p; sin y * sin p * sin r + cos y * cos r;
     sin y * sin p * cos r - cos y * sin r];
    [- sin p; cos p * sin r; cos p * cos r] ]%R.

(** * Properties *)

(** ** Evaluation of the real-number instance *)

Lemma Rltb_true (x y : R) : (x < y)%R -> Rltb x y = true.
Proof. intros H. unfold Rltb. destruct (Rlt_dec x y); [reflexivity | contradiction]. Qed.

Lemma Rltb_false (x y : R) : (y <= x)%R -> Rltb x y = false.
Proof. intros H. unfold Rltb. destruct (Rlt_dec x y); [lra | reflexivity]. Qed.

Lemma Rleb_true (x y : R) : (x <= y)%R -> Rleb x y = true.
Proof. intros H. unfold Rleb. destruct (Rle_dec x y); [reflexivity | contradiction]. Qed.

Lemma Rleb_false (x y : R) : (y < x)%R -> Rleb x y = false.
Proof. intros H. unfold Rleb. destruct (Rle_dec x y); [lra | reflexivity]. Qed.

(** ** compose_transformation *)

(** C9.  For every 3x3 matrix [R] and 3-vector [t], whatever the element
    type, [compose_transformation R t] is the 4x4 matrix with [R] in the
    top-left block, [t] in the first three entries of the last row, [1] in
    the bottom-right corner and [0] in the first three entries of the last
    column. *)
Theorem compose_transformation_layout :
  forall (T : Type) (ST : Scalar T)
         (r00 r01 r02 r10 r11 r12 r20 r21 r22 t0 t1 t2 : T),
    compose_transformation
      [[r00; r01; r02]; [r10; r11; r12]; [r20; r21; r22]] [t0; t1; t2]
    = Ok [ [r00; r01; r02; s_of_Z 0];
           [r10; r11; r12; s_of_Z 0];
           [r20; r21; r22; s_of_Z 0];
           [t0; t1; t2; s_of_Z 1] ].
Proof. intros. reflexivity. Qed.

(** ** rotate_vect_by_quat *)

(** What the code computes.  On four-component [v] and [q] the call succeeds;
    writing [x, y, z, w] for the product [(cq * v) * q], the result is
    [x, -y, -z]: the in-place negation [v[1:] *= -1] reaches the components of
    index 1, 2 and 3 ([y], [z] and the scalar [w]) and leaves [x] as it is. *)
Theorem rotate_vect_by_quat_components :
  forall (T : Type) (ST : Scalar T) (v0 v1 v2 v3 q0 q1 q2 q3 : T),
  exists x y z w : T,
    (cq_v <- trans.quaternion_multiply [s_opp q0; s_opp q1; s_opp q2; q3]
                                       [v0; v1; v2; v3] ;;
     trans.quaternion_multiply cq_v [q0; q1; q2; q3]) = Ok [x; y; z; w]
    /\ rotate_vect_by_quat [v0; v1; v2; v3] [q0; q1; q2; q3]
       = Ok [x; s_mul y (s_of_Z (-1)); s_mul z (s_of_Z (-1))].
Proof.
  intros. cbn. do 4 eexists. split; reflexivity.
Qed.

(** C2, at the failing input.  For [v = (1, 2, 3, 0)] and the identity
    quaternion the code returns [(1, -2, -3)], while the vector part of
    [cq * v * q] with all three components negated, which is what the claim
    describes, is [(-1, -2, -3)]: the slice [v[1:]] of the in-place negation
    misses the [x] component. *)
Lemma rotate_vect_by_quat_keeps_x :
  rotate_vect_by_quat [1; 2; 3; 0]%float [0; 0; 0; 1]%float
    = Ok [1; -2; -3]%float
  /\ rotate_vect_as_specified [1; 2; 3; 0]%float [0; 0; 0; 1]%float
    = Ok [-1; -2; -3]%float
  /\ PrimFloat.eqb 1 (-1) = false.
Proof. repeat split; vm_compute; reflexivity. Qed.

(** In exact arithmetic, with the identity quaternion the product
    [cq * v * q] is [v] itself, and the call returns [v] with its second and
    third components negated: [(x, -y, -z)]. *)
Theorem rotate_vect_by_quat_identity :
  forall x y z : R,
    rotate_vect_by_quat [x; y; z; 0%R] [0%R; 0%R; 0%R; 1%R]
    = Ok [x; (- y)%R; (- z)%R].
Proof.
  intros. cbn. repeat f_equal; ring.
Qed.

(** ** skew_symmetric_cross and deskew *)

(** C7, as the code has it.  [skew_symmetric_cross] stores [v0], [v1], [v2]
    at [M[2,1]], [M[0,2]], [M[1,0]] of a [float32] matrix and [deskew] reads
    these entries back into a [float32] array, so the composition returns the
    components of [v] cast to single precision; it returns [v] itself when
    its components are single-precision numbers. *)
Theorem deskew_skew_symmetric_cross :
  forall (T : Type) (ST : Scalar T) (v0 v1 v2 : T),
    (M <- skew_symmetric_cross [v0; v1; v2] ;; deskew M)
      = Ok [s_f32 (s_f32 v0); s_f32 (s_f32 v1); s_f32 (s_f32 v2)]
    /\ (s_f32 v0 = v0 -> s_f32 v1 = v1 -> s_f32 v2 = v2 ->
        (M <- skew_symmetric_cross [v0; v1; v2] ;; deskew M)
          = Ok [v0; v1; v2]).
Proof.
  intros. split; [reflexivity |].
  intros H0 H1 H2. cbn. rewrite !H0, !H1, !H2. reflexivity.
Qed.

(** C7, an instance: [(1, 2, 3)] is returned as it is. *)
Lemma deskew_skew_symmetric_cross_123 :
  (M <- skew_symmetric_cross [1; 2; 3]%float ;; deskew M)
    = Ok [1; 2; 3]%float.
Proof.
  apply (proj2 (deskew_skew_symmetric_cross Scalar_f64 1%float 2%float 3%float));
    vm_compute; reflexivity.
Defined.

(** C7, counterexample.  The double nearest to [0.1] is not a
    single-precision number: [deskew(skew_symmetric_cross((0.1, 0, 0)))]
    has first component [0x1.99999ap-4], which differs from the input. *)
Lemma deskew_skew_symmetric_cross_rounds :
  (M <- skew_symmetric_cross [lit 1 10; 0; 0]%float ;; deskew M)
    = Ok [0x1.99999ap-4; 0; 0]%float
  /\ PrimFloat.eqb 0x1.99999ap-4 (lit 1 10) = false.
Proof. split; vm_compute; reflexivity. Qed.

(** ** normalize *)

Lemma dot_zeros_f64 (n : nat) (acc : float) :
  acc = 0%float ->
  fold_left PrimFloat.add
    (zip_with PrimFloat.mul (repeat 0%float n) (repeat 0%float n)) acc
  = 0%float.
Proof.
  revert acc. induction n as [| n IH]; intros acc ->; [reflexivity |].
  cbn [repeat zip_with fold_left]. apply IH. vm_compute. reflexivity.
Qed.

(** C8, as the code has it.  Dividing the zero vector by its norm raises
    nothing: every component is the quotient [0 / 0] of binary64, a NaN, and
    the array of NaNs is the value returned. *)
Theorem normalize_zero_vector_is_nan :
  forall n : nat,
    normalize (repeat 0%float n) = repeat nan n.
Proof.
  intros n. unfold normalize, norm, dot, vdiv. cbn [s_add s_mul s_sqrt s_div s_of_Z Scalar_f64].
  rewrite dot_zeros_f64 by (vm_compute; reflexivity).
  induction n as [| n IH]; [reflexivity |].
  cbn [repeat map]. rewrite IH. f_equal.
Qed.

(** C8, counterexample.  Run on a store that holds the zero 3-vector,
    [normalize] ends normally ([Ok]) with a view onto a new buffer whose
    three elements are NaN; no exception reaches the caller. *)
Lemma normalize_zero_vector_returns :
  InPlace.normalize (InPlace.View 0 0 3) [InPlace.Vec [0; 0; 0]%float]
  = (Ok (InPlace.View 1 0 3),
     [InPlace.Vec [0; 0; 0]%float; InPlace.Vec [nan; nan; nan]]).
Proof. vm_compute. reflexivity. Qed.

(** ** clip_norm *)

(** C4, at the lower boundary.  The vector [(1, 0, 0)] has norm exactly
    [lower_bound = 1]; the chained comparison is strict, the test
    [norm < lower_bound] fails as well, and the [else] branch rescales the
    vector to [upper_bound = 2]. *)
Theorem clip_norm_at_lower_bound :
  norm [1; 0; 0]%float = 1%float
  /\ clip_norm [1; 0; 0]%float 1%float 2%float = [2; 0; 0]%float.
Proof. split; vm_compute; reflexivity. Qed.

(** ** make_rotation *)

(** C3, on antiparallel inputs.  [make_rotation((1,0,0), (-1,0,0))] is the
    identity with its last diagonal entry negated, a reflection of
    determinant [-1]. *)
Theorem make_rotation_antiparallel_reflection :
  make_rotation [1; 0; 0]%float [-1; 0; 0]%float
    = Ok [[1; 0; 0]; [0; 1; 0]; [0; 0; -1]]%float
  /\ det3 [[1; 0; 0]; [0; 1; 0]; [0; 0; -1]]%float = (-1)%float.
Proof. split; vm_compute; reflexivity. Qed.

(** ** Checks of the embedding against documented values *)

(** The doctest of [tf.transformations.quaternion_multiply]. *)
Lemma quaternion_multiply_doctest :
  trans.quaternion_multiply [1; -2; 3; 4]%float [-5; 6; 7; 8]%float
  = Ok [-44; -14; 48; 28]%float.
Proof. vm_compute. reflexivity. Qed.

(** [quaternion_matrix] in binary64: the identity quaternion gives the
    identity matrix; for the half turn about the x axis the scaling by
    [sqrt(2)] leaves [-1 - 2^-51] on the diagonal. *)
Lemma quaternion_matrix_f64 :
  quaternion_matrix [0; 0; 0; 1]%float
  = Ok [[1; 0; 0]; [0; 1; 0]; [0; 0; 1]]%float
  /\ quaternion_matrix [1; 0; 0; 0]%float
     = Ok [[1; 0; 0]; [0; -0x1.0000000000002p+0; 0];
           [0; 0; -0x1.0000000000002p+0]]%float.
Proof. split; vm_compute; reflexivity. Qed.

(** The scenario of the specification:
    [skew_symmetric((1, 2, 3))] is [[[0,-3,2],[3,0,-1],[-2,1,0]]]. *)
Theorem skew_symmetric_cross_123 :
  skew_symmetric_cross [1; 2; 3]%float
  = Ok [[0; -3; 2]; [3; 0; -1]; [-2; 1; 0]]%float.
Proof. vm_compute. reflexivity. Qed.

(** The scenario of the specification, in binary64:
    [make_rotation((1,0,0), (0,1,0))] is the quarter turn about the z axis,
    which maps [(1,0,0)] onto [(0,1,0)]. *)
Theorem make_rotation_x_onto_y :
  make_rotation [1; 0; 0]%float [0; 1; 0]%float
    = Ok [[0; -1; 0]; [1; 0; 0]; [0; 0; 1]]%float
  /\ matvec [[0; -1; 0]; [1; 0; 0]; [0; 0; 1]]%float [1; 0; 0]%float
     = [0; 1; 0]%float.
Proof. split; vm_compute; reflexivity. Qed.

(** ** make_rotation when the first tolerance test passes *)

(** Whatever the element type, when the dot product of the normalized
    3-vectors passes [np.isclose(c, 1.0, atol=1e-4)] the identity is
    returned. *)
Lemma make_rotation_test_passes (T : Type) (ST : Scalar T)
  (a0 a1 a2 b0 b1 b2 : T) :
  isclose (dot (normalize [a0; a1; a2]) (normalize [b0; b1; b2]))
          (s_of_Z 1) (lit 1 10000) = true ->
  make_rotation [a0; a1; a2] [b0; b1; b2] = Ok eye3.
Proof.
  intros H. unfold make_rotation. rewrite H.
  unfold normalize, vdiv. cbn [map cross bind skew_symmetric_cross].
  reflexivity.
Qed.

(** ** make_rotation in exact arithmetic *)

Section OverReals.
Local Open Scope R_scope.

Lemma isclose_R (a b atol : R) :
  isclose a b atol = true <-> Rabs (a - b) <= atol + 1 / 100000 * Rabs b.
Proof.
  unfold isclose, lit. cbn. unfold Rleb.
  destruct (Rle_dec _ _); split; intros; try easy.
Qed.

Lemma isclose_R_false (a b atol : R) :
  atol + 1 / 100000 * Rabs b < Rabs (a - b) -> isclose a b atol = false.
Proof.
  intros H. destruct (isclose a b atol) eqn:E; [| reflexivity].
  apply isclose_R in E. lra.
Qed.

Lemma norm3_R (a0 a1 a2 : R) :
  norm [a0; a1; a2] = sqrt (a0 * a0 + a1 * a1 + a2 * a2).
Proof. unfold norm, dot. cbn. f_equal. ring. Qed.

Lemma norm3_sqr (a0 a1 a2 : R) :
  norm [a0; a1; a2] * norm [a0; a1; a2] = a0 * a0 + a1 * a1 + a2 * a2.
Proof. rewrite norm3_R. apply sqrt_sqrt. nra. Qed.

Lemma nonzero3_sum_pos (a0 a1 a2 : R) :
  [a0; a1; a2] <> [0; 0; 0] -> 0 < a0 * a0 + a1 * a1 + a2 * a2.
Proof.
  intros H.
  destruct (Req_dec a0 0) as [-> | H0]; [| nra].
  destruct (Req_dec a1 0) as [-> | H1]; [| nra].
  destruct (Req_dec a2 0) as [-> | H2]; [| nra].
  contradiction H. reflexivity.
Qed.

(** The normalized copies of a nonzero vector have dot product 1. *)
Lemma dot_normalize_self (a0 a1 a2 : R) :
  [a0; a1; a2] <> [0; 0; 0] ->
  dot (normalize [a0; a1; a2]) (normalize [a0; a1; a2]) = 1.
Proof.
  intros H. apply nonzero3_sum_pos in H.
  pose proof (norm3_sqr a0 a1 a2) as Hn.
  unfold normalize, vdiv. cbn [map]. set (n := norm _) in *.
  assert (n <> 0) by (intros E; rewrite E in Hn; lra).
  clearbody n. unfold dot. cbn.
  replace (0 + a0 / n * (a0 / n) + a1 / n * (a1 / n) + a2 / n * (a2 / n))
    with ((a0 * a0 + a1 * a1 + a2 * a2) / (n * n)) by (field; assumption).
  rewrite Hn. field. lra.
Qed.

(** The first test of [make_rotation] decides the result when it holds. *)
Lemma make_rotation_close_to_1 (a0 a1 a2 b0 b1 b2 : R) :
  isclose (dot (normalize [a0; a1; a2]) (normalize [b0; b1; b2])) 1
          (lit 1 10000) = true ->
  make_rotation [a0; a1; a2] [b0; b1; b2] = Ok eye3.
Proof.
  intros H. unfold make_rotation.
  cbn [s_of_Z Scalar_R] in *. rewrite H.
  unfold normalize, vdiv. cbn [map cross bind skew_symmetric_cross].
  reflexivity.
Qed.




(** The determinant of [I + K + n K^2] for the skew matrix [K] of [v] is a
    sum of two squares, whatever the factor [n] is. *)
Lemma det3_rodrigues_R (v0 v1 v2 c s : R) (K : list (list R)) :
  skew_symmetric_cross [v0; v1; v2] = Ok K ->
  det3 (rodrigues K (matmul32 K K) c s)
  = (1 - (1 - c) / (s * s) * (v0 * v0 + v1 * v1 + v2 * v2)) ^ 2
    + (v0 * v0 + v1 * v1 + v2 * v2).
Proof.
  intros HK. cbn in HK. injection HK as <-.
  cbn. generalize ((1 - c) / (s * s)). intros n. ring.
Qed.

Lemma det3_rodrigues_nonneg (v0 v1 v2 c s : R) (K : list (list R)) :
  skew_symmetric_cross [v0; v1; v2] = Ok K ->
  0 <= det3 (rodrigues K (matmul32 K K) c s).
Proof.
  intros HK. rewrite (det3_rodrigues_R c s HK).
  match goal with
  | |- _ <= ?x ^ 2 + ?y =>
      assert (0 <= y) by nra; assert (0 <= x ^ 2) by (apply pow2_ge_0)
  end.
  lra.
Qed.


(** ** quat_to_rotvec in exact arithmetic *)

Lemma sqrt2_sqr : sqrt 2 * sqrt 2 = 2.
Proof. apply sqrt_sqrt. lra. Qed.

Lemma sqrt2_pos : 0 < sqrt 2.
Proof. apply sqrt_lt_R0. lra. Qed.

(** C1, on a quarter turn about the x axis.  For [q = (1, 0, 0, 1)] the
    normalized quaternion is [(1/sqrt 2, 0, 0, 1/sqrt 2)] and the angle
    [2 arccos(q.w)] is [PI / 2]; [norm] is taken of the whole normalized
    quaternion, so the vector part is divided by 1 and the result is
    [(PI / 2) * (1/sqrt 2, 0, 0)], shorter than the angle. *)
Theorem quat_to_rotvec_quarter_turn :
  quat_to_rotvec [1; 0; 0; 1] = Ok [PI / 2 * / sqrt 2; 0; 0]
  /\ 2 * acos (/ sqrt 2) = PI / 2
  /\ norm [PI / 2 * / sqrt 2; 0; 0] = PI / 2 * / sqrt 2
  /\ PI / 2 * / sqrt 2 < PI / 2.
Proof.
  pose proof sqrt2_sqr as H2. pose proof sqrt2_pos as Hp.
  assert (Hinv : / sqrt 2 * / sqrt 2 = / 2).
  { rewrite <- Rinv_mult. rewrite H2. reflexivity. }
  repeat split.
  - unfold quat_to_rotvec. cbn [firstn forallb].
    rewrite isclose_R_false.
    2:{ unfold lit. cbn [s_div s_of_Z Scalar_R].
        replace (1 - 0) with 1 by ring. rewrite Rabs_R0, Rabs_R1. lra. }
    cbn [andb getitem nth_error bind].
    cbn [s_ltb s_of_Z Scalar_R]. rewrite Rltb_false by lra.
    unfold trans.unit_vector, vdiv, dot.
    cbn [zip_with fold_left map s_mul s_add s_div s_sqrt s_of_Z Scalar_R].
    replace (0 + 1 * 1 + 0 * 0 + 0 * 0 + 1 * 1) with 2 by ring.
    cbn [getitem nth_error bind firstn].
    unfold norm, dot, vscale.
    cbn [zip_with fold_left map s_mul s_add s_div s_sqrt s_of_Z Scalar_R
         s_arccos Trig_R].
    replace (0 + 1 / sqrt 2 * (1 / sqrt 2) + 0 / sqrt 2 * (0 / sqrt 2)
             + 0 / sqrt 2 * (0 / sqrt 2) + 1 / sqrt 2 * (1 / sqrt 2)) with 1
      by (transitivity (2 * (/ sqrt 2 * / sqrt 2));
          [rewrite Hinv; field | field; lra]).
    rewrite sqrt_1.
    replace (1 / sqrt 2) with (/ sqrt 2) by (field; lra).
    rewrite acos_inv_sqrt2.
    f_equal. f_equal; [field; lra |]. f_equal; [field; lra |].
    f_equal. field. lra.
  - rewrite acos_inv_sqrt2. field.
  - unfold norm, dot. cbn.
    replace (0 + PI / 2 * / sqrt 2 * (PI / 2 * / sqrt 2) + 0 * 0 + 0 * 0)
      with ((PI / 2 * / sqrt 2) * (PI / 2 * / sqrt 2)) by ring.
    apply sqrt_square.
    pose proof PI_RGT_0. apply Rmult_le_pos; [lra |].
    left. apply Rinv_0_lt_compat. lra.
  - pose proof PI_RGT_0.
    assert (/ sqrt 2 < 1).
    { rewrite <- Rinv_1. apply Rinv_lt_contravar; [lra |]. nra. }
    nra.
Qed.

(** ** make_rotation away from the antiparallel branch *)

Lemma unit_components (a0 a1 a2 : R) :
  [a0; a1; a2] <> [0; 0; 0] ->
  a0 / norm [a0; a1; a2] * (a0 / norm [a0; a1; a2])
  + a1 / norm [a0; a1; a2] * (a1 / norm [a0; a1; a2])
  + a2 / norm [a0; a1; a2] * (a2 / norm [a0; a1; a2]) = 1.
Proof.
  intros H. pose proof (dot_normalize_self H) as E.
  unfold normalize, vdiv, dot in E. cbn in E.
  rewrite <- E. unfold norm, dot. cbn. ring.
Qed.

Lemma eye3_is_rotation : is_rotation eye3.
Proof.
  split; cbn.
  - unfold eye3. cbn [s_of_Z Scalar_R].
    repeat match goal with |- _ :: _ = _ :: _ => f_equal end;
      try reflexivity; ring.
  - ring.
Qed.

(** The Rodrigues matrix of two unit vectors that are neither parallel nor
    antiparallel is orthogonal with determinant 1. *)
Lemma rodrigues_is_rotation (v0 v1 v2 c s : R) (K : list (list R)) :
  skew_symmetric_cross [v0; v1; v2] = Ok K ->
  c * c + (v0 * v0 + v1 * v1 + v2 * v2) = 1 ->
  s * s = v0 * v0 + v1 * v1 + v2 * v2 ->
  c <> 1 -> c <> - (1) ->
  is_rotation (rodrigues K (matmul32 K K) c s).
Proof.
  intros HK H2 Hs Hc1 Hc2. cbn in HK. injection HK as <-.
  unfold rodrigues. cbn [s_sub s_div s_mul s_of_Z Scalar_R].
  assert (Hn : (1 - c) / (s * s) * (1 + c) = 1).
  { rewrite Hs.
    replace (v0 * v0 + v1 * v1 + v2 * v2) with ((1 - c) * (1 + c)) by nra.
    field. split; lra. }
  generalize dependent ((1 - c) / (s * s)). intros n Hn. clear Hs s Hc1 Hc2.
  split.
  - cbn. unfold eye3. cbn [s_of_Z Scalar_R].
    repeat match goal with |- _ :: _ = _ :: _ => f_equal end;
      try reflexivity; nsatz.
  - cbn. nsatz.
Qed.

(** It maps the first unit vector onto the second. *)
Lemma rodrigues_aligns (u0 u1 u2 w0 w1 w2 s : R) (K : list (list R)) :
  let c := u0 * w0 + u1 * w1 + u2 * w2 in
  let v0 := u1 * w2 - u2 * w1 in
  let v1 := u2 * w0 - u0 * w2 in
  let v2 := u0 * w1 - u1 * w0 in
  skew_symmetric_cross [v0; v1; v2] = Ok K ->
  u0 * u0 + u1 * u1 + u2 * u2 = 1 ->
  w0 * w0 + w1 * w1 + w2 * w2 = 1 ->
  s * s = v0 * v0 + v1 * v1 + v2 * v2 ->
  c <> 1 -> c <> - (1) ->
  matvec (rodrigues K (matmul32 K K) c s) [u0; u1; u2] = [w0; w1; w2].
Proof.
  intros c v0 v1 v2 HK Hu Hw Hs Hc1 Hc2. cbn in HK. injection HK as <-.
  assert (HS : v0 * v0 + v1 * v1 + v2 * v2 = (1 - c) * (1 + c)).
  { unfold v0, v1, v2, c. nra. }
  unfold rodrigues. cbn [s_sub s_div s_mul s_of_Z Scalar_R].
  assert (Hn : (1 - c) / (s * s) * (v0 * v0 + v1 * v1 + v2 * v2) = 1 - c).
  { rewrite Hs. field. rewrite HS. nra. }
  generalize dependent ((1 - c) / (s * s)). intros n Hn.
  clear Hs s Hc1 Hc2 HS. cbn.
  assert (Hp : v0 * u0 + v1 * u1 + v2 * u2 = 0) by (unfold v0, v1, v2; ring).
  assert (Hx0 : v1 * u2 - v2 * u1 = w0 - c * u0)
    by (unfold v0, v1, v2, c; nsatz).
  assert (Hx1 : v2 * u0 - v0 * u2 = w1 - c * u1)
    by (unfold v0, v1, v2, c; nsatz).
  assert (Hx2 : v0 * u1 - v1 * u0 = w2 - c * u2)
    by (unfold v0, v1, v2, c; nsatz).
  clearbody v0 v1 v2 c. clear Hu Hw.
  repeat match goal with |- _ :: _ = _ :: _ => f_equal end;
    try reflexivity; nsatz.
Qed.

Lemma not_isclose_self (c b : R) :
  isclose c b (lit 1 10000) = false -> c <> b.
Proof.
  intros H E. rewrite E in H.
  rewrite (proj2 (isclose_R b b (lit 1 10000))) in H; [discriminate |].
  unfold lit. cbn [s_div s_of_Z Scalar_R].
  replace (b - b) with 0 by ring. rewrite Rabs_R0.
  pose proof (Rabs_pos b). lra.
Qed.

(** What [make_rotation] computes when both tolerance tests fail, with the
    facts about the unit vectors its matrix depends on. *)
Lemma make_rotation_generic (a0 a1 a2 b0 b1 b2 : R) :
  [a0; a1; a2] <> [0; 0; 0] ->
  [b0; b1; b2] <> [0; 0; 0] ->
  isclose (dot (normalize [a0; a1; a2]) (normalize [b0; b1; b2])) 1
          (lit 1 10000) = false ->
  isclose (dot (normalize [a0; a1; a2]) (normalize [b0; b1; b2])) (- (1))
          (lit 1 10000) = false ->
  exists M : list (list R),
    make_rotation [a0; a1; a2] [b0; b1; b2] = Ok M
    /\ is_rotation M
    /\ matvec M (normalize [a0; a1; a2]) = normalize [b0; b1; b2].
Proof.
  intros Ha Hb E1 E2.
  pose proof (unit_components Ha) as Hu. pose proof (unit_components Hb) as Hw.
  pose proof (not_isclose_self E1) as Hc1.
  pose proof (not_isclose_self E2) as Hc2.
  unfold make_rotation.
  cbn [normalize vdiv map cross bind] in *.
  set (na := norm [a0; a1; a2]) in *. set (nb := norm [b0; b1; b2]) in *.
  cbn [s_sub s_mul s_div s_of_Z s_opp Scalar_R] in *.
  set (u0 := a0 / na) in *. set (u1 := a1 / na) in *. set (u2 := a2 / na) in *.
  set (w0 := b0 / nb) in *. set (w1 := b1 / nb) in *. set (w2 := b2 / nb) in *.
  clearbody u0 u1 u2 w0 w1 w2. clear na nb Ha Hb.
  set (c := dot [u0; u1; u2] [w0; w1; w2]) in *.
  assert (Ec : c = u0 * w0 + u1 * w1 + u2 * w2) by (unfold c, dot; cbn; ring).
  set (v0 := u1 * w2 - u2 * w1). set (v1 := u2 * w0 - u0 * w2).
  set (v2 := u0 * w1 - u1 * w0).
  destruct (skew_symmetric_cross [v0; v1; v2]) as [K |] eqn:HK;
    [| discriminate HK].
  cbn [bind]. rewrite E1, E2.
  pose proof (det3_rodrigues_nonneg c (norm [v0; v1; v2]) HK) as Hnn.
  match goal with
  | |- context [if ?b then _ else _] =>
      replace b with false by (symmetry; apply Rltb_false; exact Hnn)
  end.
  eexists. split; [reflexivity |]. split.
  - apply (rodrigues_is_rotation HK).
    + rewrite Ec. unfold v0, v1, v2. nra.
    + apply norm3_sqr.
    + exact Hc1.
    + exact Hc2.
  - clearbody c. subst c.
    apply (rodrigues_aligns (u0 := u0) (u1 := u1) (u2 := u2)
             (w0 := w0) (w1 := w1) (w2 := w2)); try assumption.
    apply norm3_sqr.
Qed.

(** X2.  Away from the antiparallel branch the RotationMatrix invariant holds.
    In exact arithmetic, for nonzero [a] and [b] such that the first
    tolerance test holds or the second one fails, [make_rotation(a, b)]
    returns an orthogonal matrix of determinant 1. *)
Theorem make_rotation_is_rotation (a0 a1 a2 b0 b1 b2 : R) :
  [a0; a1; a2] <> [0; 0; 0] ->
  [b0; b1; b2] <> [0; 0; 0] ->
  isclose (dot (normalize [a0; a1; a2]) (normalize [b0; b1; b2])) 1
          (lit 1 10000) = true
  \/ isclose (dot (normalize [a0; a1; a2]) (normalize [b0; b1; b2])) (- (1))
             (lit 1 10000) = false ->
  exists M : list (list R),
    make_rotation [a0; a1; a2] [b0; b1; b2] = Ok M /\ is_rotation M.
Proof.
  intros Ha Hb Hc.
  destruct (isclose (dot (normalize [a0; a1; a2]) (normalize [b0; b1; b2])) 1
                    (lit 1 10000)) eqn:E1.
  - exists eye3. split; [| apply eye3_is_rotation].
    apply make_rotation_close_to_1. exact E1.
  - destruct Hc as [Hc | Hc]; [discriminate Hc |].
    destruct (make_rotation_generic Ha Hb E1 Hc) as (M & HM & Hrot & _).
    exists M. split; assumption.
Qed.

(** X3.  The alignment the docstring promises, in the last branch.  In exact
    arithmetic, for nonzero [a] and [b] whose unit vectors have a dot product
    outside both tolerance tests, the matrix returned maps [normalize(a)]
    onto [normalize(b)]. *)
Theorem make_rotation_aligns (a0 a1 a2 b0 b1 b2 : R) :
  [a0; a1; a2] <> [0; 0; 0] ->
  [b0; b1; b2] <> [0; 0; 0] ->
  isclose (dot (normalize [a0; a1; a2]) (normalize [b0; b1; b2])) 1
          (lit 1 10000) = false ->
  isclose (dot (normalize [a0; a1; a2]) (normalize [b0; b1; b2])) (- (1))
          (lit 1 10000) = false ->
  exists M : list (list R),
    make_rotation [a0; a1; a2] [b0; b1; b2] = Ok M
    /\ matvec M (normalize [a0; a1; a2]) = normalize [b0; b1; b2].
Proof.
  intros Ha Hb E1 E2.
  destruct (make_rotation_generic Ha Hb E1 E2) as (M & HM & _ & Hal).
  exists M. split; assumption.
Qed.

Lemma norm_e1 : norm [1; 0; 0] = 1.
Proof.
  rewrite norm3_R. replace (1 * 1 + 0 * 0 + 0 * 0) with 1 by ring.
  apply sqrt_1.
Qed.

Lemma norm_e2 : norm [0; 1; 0] = 1.
Proof.
  rewrite norm3_R. replace (0 * 0 + 1 * 1 + 0 * 0) with 1 by ring.
  apply sqrt_1.
Qed.

Lemma dot_normalize_e1_e2 : dot (normalize [1; 0; 0]) (normalize [0; 1; 0]) = 0.
Proof.
  unfold normalize. rewrite norm_e1, norm_e2. unfold vdiv, dot. cbn. field.
Qed.

Lemma e1_nonzero : [1; 0; 0] <> [0; 0; 0].
Proof. intros H. injection H. intros. lra. Qed.

Lemma e2_nonzero : [0; 1; 0] <> [0; 0; 0].
Proof. intros H. injection H. intros. lra. Qed.

Lemma e1_e2_not_close_1 :
  isclose (dot (normalize [1; 0; 0]) (normalize [0; 1; 0])) 1 (lit 1 10000)
  = false.
Proof.
  rewrite dot_normalize_e1_e2. apply isclose_R_false.
  unfold lit. cbn [s_div s_of_Z Scalar_R].
  replace (0 - 1) with (- (1)) by ring. rewrite Rabs_Ropp, Rabs_R1. lra.
Qed.

Lemma e1_e2_not_close_m1 :
  isclose (dot (normalize [1; 0; 0]) (normalize [0; 1; 0])) (- (1))
          (lit 1 10000) = false.
Proof.
  rewrite dot_normalize_e1_e2. apply isclose_R_false.
  unfold lit. cbn [s_div s_of_Z Scalar_R].
  replace (0 - - (1)) with 1 by ring. rewrite Rabs_Ropp, Rabs_R1. lra.
Qed.

(** [make_rotation((1,0,0), (0,1,0))] is a rotation. *)
Lemma make_rotation_is_rotation_e1_e2 :
  exists M : list (list R),
    make_rotation [1; 0; 0] [0; 1; 0] = Ok M /\ is_rotation M.
Proof.
  apply make_rotation_is_rotation.
  - exact e1_nonzero.
  - exact e2_nonzero.
  - right. exact e1_e2_not_close_m1.
Defined.

(** [make_rotation((1,0,0), (0,1,0))] maps the x axis onto the y axis. *)
Lemma make_rotation_aligns_e1_e2 :
  exists M : list (list R),
    make_rotation [1; 0; 0] [0; 1; 0] = Ok M
    /\ matvec M (normalize [1; 0; 0]) = normalize [0; 1; 0].
Proof.
  apply make_rotation_aligns.
  - exact e1_nonzero.
  - exact e2_nonzero.
  - exact e1_e2_not_close_1.
  - exact e1_e2_not_close_m1.
Defined.

Lemma norm3_opp (a0 a1 a2 : R) :
  norm [- a0; - a1; - a2] = norm [a0; a1; a2].
Proof. rewrite !norm3_R. f_equal. ring. Qed.

(** X4.  The antiparallel branch.  In exact arithmetic, for every nonzero [a],
    [make_rotation(a, -a)] is the identity with its last diagonal entry
    negated, of determinant [-1]. *)
Theorem make_rotation_opposite (a0 a1 a2 : R) :
  [a0; a1; a2] <> [0; 0; 0] ->
  make_rotation [a0; a1; a2] [- a0; - a1; - a2]
    = Ok [[1; 0; 0]; [0; 1; 0]; [0; 0; - (1)]]
  /\ det3 [[1; 0; 0]; [0; 1; 0]; [0; 0; - (1)]] = - (1).
Proof.
  intros Ha. split; [| cbn; ring].
  assert (Ec : dot (normalize [a0; a1; a2]) (normalize [- a0; - a1; - a2])
               = - (1)).
  { pose proof (unit_components Ha) as Hu.
    unfold normalize. rewrite norm3_opp.
    set (n := norm [a0; a1; a2]) in *. clearbody n.
    unfold vdiv, dot. cbn.
    replace (0 + a0 / n * (- a0 / n) + a1 / n * (- a1 / n)
             + a2 / n * (- a2 / n))
      with (- (a0 / n * (a0 / n) + a1 / n * (a1 / n) + a2 / n * (a2 / n)))
      by (unfold Rdiv; ring).
    rewrite Hu. reflexivity. }
  unfold make_rotation. rewrite Ec.
  cbn [normalize vdiv map cross bind skew_symmetric_cross].
  cbn [s_of_Z s_opp Scalar_R].
  rewrite isclose_R_false.
  2:{ unfold lit. cbn [s_div s_of_Z Scalar_R].
      replace (- (1) - 1) with (- (2)) by ring.
      rewrite Rabs_Ropp, Rabs_R1, (Rabs_pos_eq 2) by lra. lra. }
  rewrite (proj2 (isclose_R (- (1)) (- (1)) (lit 1 10000))).
  2:{ unfold lit. cbn [s_div s_of_Z Scalar_R].
      replace (- (1) - - (1)) with 0 by ring.
      rewrite Rabs_R0, Rabs_Ropp, Rabs_R1. lra. }
  cbn. repeat f_equal. ring.
Qed.

(** [make_rotation((1,0,0), (-1,0,0))] in exact arithmetic. *)
Lemma make_rotation_opposite_e1 :
  make_rotation [1; 0; 0] [- (1); - 0; - 0]
    = Ok [[1; 0; 0]; [0; 1; 0]; [0; 0; - (1)]]
  /\ det3 [[1; 0; 0]; [0; 1; 0]; [0; 0; - (1)]] = - (1).
Proof. apply make_rotation_opposite. exact e1_nonzero. Defined.

(** ** clip_norm in exact arithmetic *)

Lemma sum_sq_scale (v : list R) (c acc : R) :
  fold_left Rplus
    (zip_with Rmult (map (fun x => x * c) v) (map (fun x => x * c) v))
    (acc * (c * c))
  = fold_left Rplus (zip_with Rmult v v) acc * (c * c).
Proof.
  revert acc. induction v as [| x v IH]; intros acc; cbn; [reflexivity |].
  replace (acc * (c * c) + x * c * (x * c)) with ((acc + x * x) * (c * c))
    by ring.
  apply IH.
Qed.

Lemma sum_sq_nonneg (v : list R) (acc : R) :
  0 <= acc -> 0 <= fold_left Rplus (zip_with Rmult v v) acc.
Proof.
  revert acc. induction v as [| x v IH]; intros acc H; cbn; [exact H |].
  apply IH. nra.
Qed.

Lemma dot_self_nonneg (v : list R) : 0 <= dot v v.
Proof. unfold dot. cbn. apply sum_sq_nonneg. lra. Qed.

Lemma norm_sqr (v : list R) : norm v * norm v = dot v v.
Proof. unfold norm. cbn. apply sqrt_sqrt. apply dot_self_nonneg. Qed.

Lemma rescale_eq (v : list R) (k n : R) :
  vdiv (vscale v k) n = map (fun x => x * (k / n)) v.
Proof.
  unfold vdiv, vscale. rewrite map_map. apply map_ext. intros x. cbn.
  unfold Rdiv. ring.
Qed.

(** Rescaling a vector of positive norm by [k / norm] gives norm [k]. *)
Lemma norm_rescale (v : list R) (k : R) :
  0 < norm v -> 0 <= k -> norm (vdiv (vscale v k) (norm v)) = k.
Proof.
  intros Hn Hk. rewrite rescale_eq. set (n := norm v) in *.
  unfold norm at 1, dot. cbn [s_sqrt s_add s_mul s_of_Z Scalar_R].
  replace 0 with (0 * (k / n * (k / n))) at 1 by ring.
  rewrite sum_sq_scale.
  change (fold_left Rplus (zip_with Rmult v v) 0) with (dot v v).
  rewrite <- norm_sqr. fold n.
  replace (n * n * (k / n * (k / n))) with (k * k) by (field; lra).
  apply sqrt_square. exact Hk.
Qed.

Lemma rescale_same (v : list R) (n : R) : n <> 0 -> vdiv (vscale v n) n = v.
Proof.
  intros Hn. rewrite rescale_eq. rewrite <- (map_id v) at 2.
  apply map_ext. intros x. field. exact Hn.
Qed.

(** X1.  What [clip_norm] does away from the lower boundary.  In exact
    arithmetic and for [0 < lower <= upper]: a vector with
    [lower < norm < upper] is returned as it is; a nonzero vector with
    [norm < lower] is multiplied by the positive factor [lower / norm] and
    the result has norm [lower]; a vector with [upper < norm] is multiplied
    by [upper / norm] and the result has norm [upper]; a vector with
    [norm = upper] is returned with the same components. *)
Theorem clip_norm_exact (v : list R) (lower upper : R) :
  0 < lower <= upper ->
  (lower < norm v < upper -> clip_norm v lower upper = v)
  /\ (0 < norm v < lower ->
      clip_norm v lower upper = map (fun x => x * (lower / norm v)) v
      /\ norm (clip_norm v lower upper) = lower)
  /\ (upper < norm v ->
      clip_norm v lower upper = map (fun x => x * (upper / norm v)) v
      /\ norm (clip_norm v lower upper) = upper)
  /\ (norm v = upper -> clip_norm v lower upper = v).
Proof.
  intros Hb. unfold clip_norm. cbn [s_ltb Scalar_R].
  split; [| split; [| split]].
  - intros H. rewrite !Rltb_true by lra. reflexivity.
  - intros H. rewrite (Rltb_false (x := lower) (y := norm v)) by lra.
    cbn [andb]. rewrite Rltb_true by lra.
    split; [apply rescale_eq | apply norm_rescale; lra].
  - intros H. rewrite (Rltb_false (x := norm v) (y := upper)) by lra.
    rewrite andb_false_r. rewrite Rltb_false by lra.
    split; [apply rescale_eq | apply norm_rescale; lra].
  - intros H. rewrite (Rltb_false (x := norm v) (y := upper)) by lra.
    rewrite andb_false_r. rewrite Rltb_false by lra.
    rewrite <- H at 1. apply rescale_same. lra.
Qed.

Lemma norm_345 : norm [3; 4; 0] = 5.
Proof.
  rewrite norm3_R. replace (3 * 3 + 4 * 4 + 0 * 0) with (5 * 5) by ring.
  apply sqrt_square. lra.
Qed.

(** The scenario of the specification: [clip_norm((3,4,0), 1, 2)] has norm
    exactly 2 and is [(3, 4, 0)] times [2/5]. *)
Lemma clip_norm_345 :
  clip_norm [3; 4; 0] 1 2 = map (fun x => x * (2 / norm [3; 4; 0])) [3; 4; 0]
  /\ norm (clip_norm [3; 4; 0] 1 2) = 2.
Proof.
  apply (clip_norm_exact [3; 4; 0] (lower := 1) (upper := 2)).
  - lra.
  - rewrite norm_345. lra.
Defined.

(** ** normalize and project_pt_to_plane in exact arithmetic *)

(** X7.  A vector of positive norm is normalized to norm 1. *)
Theorem normalize_unit (v : list R) :
  0 < norm v -> norm (normalize v) = 1.
Proof.
  intros Hn. unfold normalize.
  replace (vdiv v (norm v)) with (vdiv (vscale v 1) (norm v)).
  - apply norm_rescale; lra.
  - f_equal. unfold vscale. rewrite <- (map_id v) at 2.
    apply map_ext. intros x. cbn. ring.
Qed.

Lemma normalize_unit_345 : norm (normalize [3; 4; 0]) = 1.
Proof. apply normalize_unit. rewrite norm_345. lra. Defined.

(** X8.  For a unit normal, the projected point lies in the plane through
    the origin: its dot product with the normal is 0. *)
Theorem project_pt_to_plane_orthogonal (p0 p1 p2 n0 n1 n2 : R) :
  dot [n0; n1; n2] [n0; n1; n2] = 1 ->
  dot [n0; n1; n2] (project_pt_to_plane [p0; p1; p2] [n0; n1; n2]) = 0.
Proof.
  unfold project_pt_to_plane, dot. cbn. intros H. nsatz.
Qed.

Lemma project_pt_to_plane_orthogonal_z :
  dot [0; 0; 1] (project_pt_to_plane [1; 2; 3] [0; 0; 1]) = 0.
Proof.
  apply project_pt_to_plane_orthogonal. unfold dot. cbn. ring.
Defined.

(** ** quat_to_rotvec in general *)

Lemma isclose_zero_R : isclose 0 0 (lit 1 100000000) = true.
Proof.
  apply isclose_R. unfold lit. cbn [s_div s_of_Z Scalar_R].
  replace (0 - 0) with 0 by ring. rewrite Rabs_R0. lra.
Qed.

Lemma vector_part_nonzero (x y z : R) :
  forallb (fun t => isclose t 0 (lit 1 100000000)) [x; y; z] = false ->
  0 < x * x + y * y + z * z.
Proof.
  intros H.
  destruct (Req_dec x 0) as [-> | Hx]; [| nra].
  destruct (Req_dec y 0) as [-> | Hy]; [| nra].
  destruct (Req_dec z 0) as [-> | Hz]; [| nra].
  cbn [forallb] in H. cbn [s_of_Z Scalar_R] in H.
  rewrite isclose_zero_R in H. discriminate H.
Qed.

(** The unit quaternion has norm 1, so dividing by [norm] changes nothing. *)
Lemma unit_vector4 (x y z w : R) :
  0 < x * x + y * y + z * z + w * w ->
  exists ux uy uz uw : R,
    trans.unit_vector [x; y; z; w] = [ux; uy; uz; uw]
    /\ ux * ux + uy * uy + uz * uz + uw * uw = 1
    /\ norm [ux; uy; uz; uw] = 1.
Proof.
  intros HS.
  unfold trans.unit_vector, vdiv, dot.
  cbn [zip_with fold_left map s_mul s_add s_div s_sqrt s_of_Z Scalar_R].
  replace (0 + x * x + y * y + z * z + w * w)
    with (x * x + y * y + z * z + w * w) by ring.
  set (S := x * x + y * y + z * z + w * w) in *.
  assert (Hn : sqrt S * sqrt S = S) by (apply sqrt_sqrt; lra).
  assert (Hp : 0 < sqrt S) by (apply sqrt_lt_R0; exact HS).
  set (n := sqrt S) in *. clearbody n.
  assert (Hu : x / n * (x / n) + y / n * (y / n) + z / n * (z / n)
               + w / n * (w / n) = 1).
  { replace (x / n * (x / n) + y / n * (y / n) + z / n * (z / n)
             + w / n * (w / n)) with (S / (n * n)) by (unfold S; field; lra).
    rewrite Hn. field. lra. }
  do 4 eexists. split; [reflexivity |]. split; [exact Hu |].
  unfold norm, dot.
  cbn [zip_with fold_left s_mul s_add s_sqrt s_of_Z Scalar_R].
  replace (0 + x / n * (x / n) + y / n * (y / n) + z / n * (z / n)
           + w / n * (w / n)) with 1 by lra.
  apply sqrt_1.
Qed.

(** X5.  What [quat_to_rotvec] returns outside the degenerate case.  In exact
    arithmetic, when the vector part of [q] is not close to zero, the result
    is the vector part of the unit quaternion [u] (the normalized [q], with
    its sign flipped when [q.w < 0]) times the angle [2 arccos(u.w)]: the
    division by [norm] is a division by 1, the axis is not renormalized. *)
Theorem quat_to_rotvec_formula (x y z w : R) :
  forallb (fun t => isclose t 0 (lit 1 100000000)) [x; y; z] = false ->
  exists ux uy uz uw : R,
    trans.unit_vector
      (if Rltb w 0 then [- x; - y; - z; - w] else [x; y; z; w])
      = [ux; uy; uz; uw]
    /\ ux * ux + uy * uy + uz * uz + uw * uw = 1
    /\ quat_to_rotvec [x; y; z; w]
       = Ok [ux * (acos uw * 2); uy * (acos uw * 2); uz * (acos uw * 2)].
Proof.
  intros H. pose proof (@vector_part_nonzero x y z H) as Hv.
  unfold quat_to_rotvec. cbn [firstn s_of_Z Scalar_R]. rewrite H.
  cbn [getitem nth_error bind s_ltb s_of_Z Scalar_R map s_opp].
  assert (Hq : exists x' y' z' w' : R,
             (if Rltb w 0 then [- x; - y; - z; - w] else [x; y; z; w])
             = [x'; y'; z'; w']
             /\ 0 < x' * x' + y' * y' + z' * z' + w' * w').
  { destruct (Rltb w 0); do 4 eexists; (split; [reflexivity | nra]). }
  destruct Hq as (x' & y' & z' & w' & -> & HS).
  destruct (@unit_vector4 x' y' z' w' HS) as (ux & uy & uz & uw & -> & H1 & Hn).
  exists ux, uy, uz, uw. split; [reflexivity |]. split; [exact H1 |].
  cbn [getitem nth_error bind firstn]. rewrite Hn.
  unfold vscale, vdiv.
  cbn [map s_mul s_div s_arccos Trig_R s_of_Z Scalar_R].
  repeat f_equal; field.
Qed.

Lemma quat_to_rotvec_formula_1001 :
  exists ux uy uz uw : R,
    trans.unit_vector
      (if Rltb 1 0 then [- (1); - 0; - 0; - (1)] else [1; 0; 0; 1])
      = [ux; uy; uz; uw]
    /\ ux * ux + uy * uy + uz * uz + uw * uw = 1
    /\ quat_to_rotvec [1; 0; 0; 1]
       = Ok [ux * (acos uw * 2); uy * (acos uw * 2); uz * (acos uw * 2)].
Proof.
  apply quat_to_rotvec_formula.
  cbn [forallb]. rewrite isclose_R_false; [reflexivity |].
  unfold lit. cbn [s_div s_of_Z Scalar_R].
  replace (1 - 0) with 1 by ring. rewrite Rabs_R0, Rabs_R1. lra.
Defined.

(** X6.  The degenerate case.  When the three components of the vector part
    are within [1e-8] of zero, the zero vector is returned, whatever [q.w]
    is. *)
Theorem quat_to_rotvec_degenerate (x y z w : R) :
  Rabs x <= 1 / 100000000 -> Rabs y <= 1 / 100000000 ->
  Rabs z <= 1 / 100000000 ->
  quat_to_rotvec [x; y; z; w] = Ok [0; 0; 0].
Proof.
  intros Hx Hy Hz. unfold quat_to_rotvec. cbn [firstn forallb].
  assert (Hc : forall t, Rabs t <= 1 / 100000000 ->
                         isclose t 0 (lit 1 100000000) = true).
  { intros t Ht. apply isclose_R. unfold lit. cbn [s_div s_of_Z Scalar_R].
    replace (t - 0) with t by ring. rewrite Rabs_R0. lra. }
  cbn [s_of_Z Scalar_R]. rewrite !Hc by assumption. reflexivity.
Qed.

Lemma quat_to_rotvec_identity :
  quat_to_rotvec [0; 0; 0; 1] = Ok [0; 0; 0].
Proof.
  apply quat_to_rotvec_degenerate; rewrite Rabs_R0; lra.
Defined.

End OverReals.

(** Equality of arrays and of results, entry by entry. *)
Ltac entries :=
  repeat match goal with
         | |- Ok _ = Ok _ => f_equal
         | |- _ :: _ = _ :: _ => f_equal
         | |- _ ++ _ = _ ++ _ => f_equal
         end;
  try reflexivity.

(** ** Shapes accepted and exceptions raised *)

Section Shapes.
Context {T : Type} {ST : Scalar T}.

(** Whatever the element type, an array of exactly three components
    passes the assertion of [skew_symmetric_cross] and the result is a 3x3
    matrix; an array of any other length, the empty one included, raises
    [AssertionError]. *)
Theorem skew_symmetric_cross_shape (a : list T) :
  (length a = 3%nat ->
   exists M, skew_symmetric_cross a = Ok M
             /\ length M = 3%nat /\ Forall (fun row => length row = 3%nat) M)
  /\ (length a <> 3%nat -> skew_symmetric_cross a = Raise AssertionError).
Proof.
  split; intros H.
  - destruct a as [| a0 [| a1 [| a2 [| a3 a]]]]; try discriminate H.
    eexists. split; [reflexivity |]. split; [reflexivity |].
    repeat constructor.
  - destruct a as [| a0 [| a1 [| a2 [| a3 a]]]]; try reflexivity.
    exfalso. apply H. reflexivity.
Qed.

(** X9.  The lengths [rotate_vect_by_quat] accepts, whatever the element
    type.  A [q] of fewer than four components raises [IndexError] (at
    [q[0]] .. [q[3]]); with a [q] of four components, a [v] of any length
    other than four (a plain 3-vector included) raises [ValueError], and so
    does a [q] of more than four components: the library product unpacks
    exactly four components of each argument.  With four components each the
    call returns three components. *)
Theorem rotate_vect_by_quat_shape (v q : list T) :
  ((length q < 4)%nat -> rotate_vect_by_quat v q = Raise IndexError)
  /\ (length q = 4%nat -> length v <> 4%nat ->
      rotate_vect_by_quat v q = Raise ValueError)
  /\ ((4 < length q)%nat -> rotate_vect_by_quat v q = Raise ValueError)
  /\ (length q = 4%nat -> length v = 4%nat ->
      exists r0 r1 r2 : T, rotate_vect_by_quat v q = Ok [r0; r1; r2]).
Proof.
  split; [| split; [| split]].
  - intros H.
    destruct q as [| q0 [| q1 [| q2 [| q3 q]]]]; try reflexivity.
    cbn in H. lia.
  - intros Hq Hv.
    destruct q as [| q0 [| q1 [| q2 [| q3 [| q4 q]]]]]; try discriminate Hq.
    destruct v as [| v0 [| v1 [| v2 [| v3 [| v4 v]]]]]; try reflexivity.
    exfalso. apply Hv. reflexivity.
  - intros Hq.
    destruct q as [| q0 [| q1 [| q2 [| q3 [| q4 q]]]]]; try (cbn in Hq; lia).
    destruct v as [| v0 [| v1 [| v2 [| v3 [| v4 v]]]]]; reflexivity.
  - intros Hq Hv.
    destruct q as [| q0 [| q1 [| q2 [| q3 [| q4 q]]]]]; try discriminate Hq.
    destruct v as [| v0 [| v1 [| v2 [| v3 [| v4 v]]]]]; try discriminate Hv.
    cbn. do 3 eexists. reflexivity.
Qed.

(** X10.  [compose_transformation] accepts a translation of one or three
    components (one component is broadcast along the row) and rejects any
    other length; a rotation block with a number of rows other than one or
    three is rejected as well. *)
Theorem compose_transformation_shape
  (r00 r01 r02 r10 r11 r12 r20 r21 r22 : T) (R : list (list T)) (t : list T) :
  let R3 := [[r00; r01; r02]; [r10; r11; r12]; [r20; r21; r22]] in
  (forall x : T,
      compose_transformation R3 [x]
      = Ok [ [r00; r01; r02; s_of_Z 0];
             [r10; r11; r12; s_of_Z 0];
             [r20; r21; r22; s_of_Z 0];
             [x; x; x; s_of_Z 1] ])
  /\ (length t <> 1%nat -> length t <> 3%nat ->
      compose_transformation R3 t = Raise ValueError)
  /\ (length R <> 1%nat -> length R <> 3%nat ->
      compose_transformation R t = Raise ValueError).
Proof.
  intros R3. split; [| split].
  - intros x. reflexivity.
  - intros H1 H3.
    destruct t as [| t0 [| t1 [| t2 [| t3 t]]]]; try reflexivity.
    + exfalso. apply H1. reflexivity.
    + exfalso. apply H3. reflexivity.
  - intros H1 H3.
    destruct R as [| R0 [| R1 [| R2 [| R4 R]]]]; try reflexivity.
    + exfalso. apply H1. reflexivity.
    + exfalso. apply H3. reflexivity.
Qed.

End Shapes.

(** ** More on the vector routines, in exact arithmetic *)

Section VectorsOverReals.
Local Open Scope R_scope.

Lemma map_scale_one (v : list R) : map (fun x => x * 1) v = v.
Proof.
  rewrite <- (map_id v) at 2. apply map_ext. intros x. ring.
Qed.

(** X11.  In exact arithmetic and for [0 < lower <= upper], whatever branch
    is taken, a vector of positive norm comes back as a positive multiple of
    itself with its norm inside [[lower, upper]]. *)
Theorem clip_norm_bounds (v : list R) (lower upper : R) :
  0 < lower <= upper ->
  0 < norm v ->
  lower <= norm (clip_norm v lower upper) <= upper
  /\ exists k : R, 0 < k /\ clip_norm v lower upper = map (fun x => x * k) v.
Proof.
  intros Hb Hn. unfold clip_norm. cbn [s_ltb Scalar_R].
  destruct (Rlt_dec lower (norm v)) as [Hl | Hl];
    [rewrite (Rltb_true Hl) | rewrite (Rltb_false (x := lower) (y := norm v))
                                by lra];
    cbn [andb].
  - destruct (Rlt_dec (norm v) upper) as [Hu | Hu].
    + rewrite (Rltb_true Hu). split; [lra |].
      exists 1. split; [lra | symmetry; apply map_scale_one].
    + rewrite (Rltb_false (x := norm v) (y := upper)) by lra.
      rewrite (Rltb_false (x := norm v) (y := lower)) by lra.
      rewrite norm_rescale by lra. split; [lra |].
      exists (upper / norm v). split; [apply Rdiv_lt_0_compat; lra |].
      apply rescale_eq.
  - destruct (Rlt_dec (norm v) lower) as [Hu | Hu].
    + rewrite (Rltb_true Hu).
      rewrite norm_rescale by lra. split; [lra |].
      exists (lower / norm v). split; [apply Rdiv_lt_0_compat; lra |].
      apply rescale_eq.
    + rewrite (Rltb_false (x := norm v) (y := lower)) by lra.
      rewrite norm_rescale by lra. split; [lra |].
      exists (upper / norm v). split; [apply Rdiv_lt_0_compat; lra |].
      apply rescale_eq.
Qed.

Lemma clip_norm_bounds_345 :
  1 <= norm (clip_norm [3; 4; 0] 1 2) <= 2
  /\ exists k : R, 0 < k /\ clip_norm [3; 4; 0] 1 2
                            = map (fun x => x * k) [3; 4; 0].
Proof.
  apply clip_norm_bounds.
  - lra.
  - rewrite norm_345. lra.
Defined.

(** X12.  In exact arithmetic and for [0 < lower < upper], a vector whose
    norm is exactly [lower] is not returned as it is: both strict tests
    fail, the [else] branch multiplies it by [upper / lower], and the result
    has norm [upper]. *)
Theorem clip_norm_lower_boundary (v : list R) (lower upper : R) :
  0 < lower < upper ->
  norm v = lower ->
  clip_norm v lower upper = map (fun x => x * (upper / lower)) v
  /\ norm (clip_norm v lower upper) = upper.
Proof.
  intros Hb Hn. unfold clip_norm. cbn [s_ltb Scalar_R].
  rewrite (Rltb_false (x := lower) (y := norm v)) by lra. cbn [andb].
  rewrite (Rltb_false (x := norm v) (y := lower)) by lra.
  split.
  - rewrite rescale_eq, Hn. reflexivity.
  - apply norm_rescale; lra.
Qed.

Lemma clip_norm_lower_boundary_e1 :
  clip_norm [1; 0; 0] 1 2 = map (fun x => x * (2 / 1)) [1; 0; 0]
  /\ norm (clip_norm [1; 0; 0] 1 2) = 2.
Proof.
  apply clip_norm_lower_boundary.
  - lra.
  - apply norm_e1.
Defined.

Lemma norm_vscale (v : list R) (k : R) :
  0 <= k -> norm (vscale v k) = norm v * k.
Proof.
  intros Hk. unfold norm, dot, vscale.
  cbn [s_sqrt s_add s_mul s_of_Z Scalar_R].
  replace 0 with (0 * (k * k)) at 1 by ring.
  rewrite sum_sq_scale.
  rewrite sqrt_mult_alt by (apply sum_sq_nonneg; lra).
  rewrite sqrt_square by exact Hk. reflexivity.
Qed.

(** X13.  In exact arithmetic, [normalize] sees the direction only: for a
    vector of positive norm, a positive factor does not change the result,
    and normalizing a second time changes nothing. *)
Theorem normalize_direction (v : list R) (k : R) :
  0 < norm v -> 0 < k ->
  normalize (vscale v k) = normalize v
  /\ normalize (normalize v) = normalize v.
Proof.
  intros Hn Hk. split.
  - unfold normalize. rewrite norm_vscale by lra.
    unfold vdiv, vscale. rewrite map_map. apply map_ext. intros x.
    cbn [s_mul s_div Scalar_R]. field. split; lra.
  - unfold normalize at 1.
    assert (H1 : norm (normalize v) = 1).
    { unfold normalize.
      replace (vdiv v (norm v)) with (vdiv (vscale v 1) (norm v))
        by (unfold vscale; rewrite map_scale_one; reflexivity).
      apply norm_rescale; lra. }
    rewrite H1. unfold vdiv. rewrite <- (map_id (normalize v)) at 2.
    apply map_ext. intros x. cbn [s_div Scalar_R]. field.
Qed.

Lemma normalize_direction_345 :
  normalize (vscale [3; 4; 0] 2) = normalize [3; 4; 0]
  /\ normalize (normalize [3; 4; 0]) = normalize [3; 4; 0].
Proof.
  apply normalize_direction.
  - rewrite norm_345. lra.
  - lra.
Defined.

(** X14.  In exact arithmetic (the cast to [float32] is then the identity),
    the matrix [K] of [skew_symmetric_cross(a)] is antisymmetric and its
    product with a vector [x] is the cross product [np.cross(a, x)]. *)
Theorem skew_symmetric_cross_is_cross (a0 a1 a2 x0 x1 x2 : R) :
  exists K : list (list R),
    skew_symmetric_cross [a0; a1; a2] = Ok K
    /\ transpose K = map (map Ropp) K
    /\ cross [a0; a1; a2] [x0; x1; x2] = Ok (matvec K [x0; x1; x2]).
Proof.
  eexists. split; [reflexivity |]. split.
  - cbn. entries; ring.
  - cbn. entries; ring.
Qed.

(** X15.  In exact arithmetic, on an antisymmetric 3x3 matrix [M],
    [skew_symmetric_cross] undoes [deskew]:
    [skew_symmetric_cross(deskew(M))] is [M]. *)
Theorem skew_symmetric_cross_deskew
  (m00 m01 m02 m10 m11 m12 m20 m21 m22 : R) :
  let M := [[m00; m01; m02]; [m10; m11; m12]; [m20; m21; m22]] in
  transpose M = map (map Ropp) M ->
  (v <- deskew M ;; skew_symmetric_cross v) = Ok M.
Proof.
  intros M H. subst M. cbn in H.
  injection H as H00 H10 H20 H01 H11 H21 H02 H12 H22.
  cbn. entries; lra.
Qed.

Lemma skew_symmetric_cross_deskew_123 :
  (v <- deskew [[0; - (3); 2]; [3; 0; - (1)]; [- (2); 1; 0]] ;;
   skew_symmetric_cross v)
  = Ok [[0; - (3); 2]; [3; 0; - (1)]; [- (2); 1; 0]].
Proof.
  apply skew_symmetric_cross_deskew. cbn. entries; ring.
Defined.

(** X16.  In exact arithmetic and for a unit normal, projecting a second
    time changes nothing, and a point whose dot product with the normal is 0
    is returned as it is. *)
Theorem project_pt_to_plane_idempotent (p0 p1 p2 n0 n1 n2 : R) :
  dot [n0; n1; n2] [n0; n1; n2] = 1 ->
  project_pt_to_plane (project_pt_to_plane [p0; p1; p2] [n0; n1; n2])
                      [n0; n1; n2]
  = project_pt_to_plane [p0; p1; p2] [n0; n1; n2]
  /\ (dot [n0; n1; n2] [p0; p1; p2] = 0 ->
      project_pt_to_plane [p0; p1; p2] [n0; n1; n2] = [p0; p1; p2]).
Proof.
  unfold project_pt_to_plane, dot. cbn. intros H. split.
  - entries; nsatz.
  - intros Hp. entries; nsatz.
Qed.

Lemma project_pt_to_plane_idempotent_z :
  project_pt_to_plane (project_pt_to_plane [1; 2; 3] [0; 0; 1]) [0; 0; 1]
  = project_pt_to_plane [1; 2; 3] [0; 0; 1]
  /\ (dot [0; 0; 1] [1; 2; 3] = 0 ->
      project_pt_to_plane [1; 2; 3] [0; 0; 1] = [1; 2; 3]).
Proof.
  apply project_pt_to_plane_idempotent. unfold dot. cbn. ring.
Defined.

(** X17.  In exact arithmetic, the matrix [Tm] of
    [compose_transformation(R, t)] acts on row vectors: [(p, 1) Tm] is
    [(p R + t, 1)].  Applied to the column vector [(p, 1)] it gives
    [(R p, t . p + 1)]: the point is not translated. *)
Theorem compose_transformation_row_convention
  (r00 r01 r02 r10 r11 r12 r20 r21 r22 t0 t1 t2 p0 p1 p2 : R) :
  let R3 := [[r00; r01; r02]; [r10; r11; r12]; [r20; r21; r22]] in
  exists Tm : list (list R),
    compose_transformation R3 [t0; t1; t2] = Ok Tm
    /\ matvec (transpose Tm) [p0; p1; p2; 1]
       = zip_with Rplus (matvec (transpose R3) [p0; p1; p2]) [t0; t1; t2]
         ++ [1]
    /\ matvec Tm [p0; p1; p2; 1]
       = matvec R3 [p0; p1; p2] ++ [dot [t0; t1; t2] [p0; p1; p2] + 1].
Proof.
  intros R3. eexists. split; [reflexivity |]. split.
  - cbn. entries; ring.
  - cbn. entries; ring.
Qed.

End VectorsOverReals.

(** ** More on the rotation routines, in exact arithmetic *)

Section RotationsOverReals.
Local Open Scope R_scope.

Lemma dot3_comm (u0 u1 u2 w0 w1 w2 : R) :
  dot [w0; w1; w2] [u0; u1; u2] = dot [u0; u1; u2] [w0; w1; w2].
Proof. unfold dot. cbn. ring. Qed.

Lemma norm_cross_swap (u0 u1 u2 w0 w1 w2 : R) :
  norm [w1 * u2 - w2 * u1; w2 * u0 - w0 * u2; w0 * u1 - w1 * u0]
  = norm [u1 * w2 - u2 * w1; u2 * w0 - u0 * w2; u0 * w1 - u1 * w0].
Proof. rewrite !norm3_R. f_equal. ring. Qed.

(** Swapping the vectors swaps the sign of the skew matrix, hence
    transposes the Rodrigues matrix. *)
Lemma rodrigues_swap (u0 u1 u2 w0 w1 w2 c s : R) (K K' : list (list R)) :
  skew_symmetric_cross
    [u1 * w2 - u2 * w1; u2 * w0 - u0 * w2; u0 * w1 - u1 * w0] = Ok K ->
  skew_symmetric_cross
    [w1 * u2 - w2 * u1; w2 * u0 - w0 * u2; w0 * u1 - w1 * u0] = Ok K' ->
  rodrigues K' (matmul32 K' K') c s
  = transpose (rodrigues K (matmul32 K K) c s).
Proof.
  intros HK HK'. cbn in HK, HK'. injection HK as <-. injection HK' as <-.
  unfold rodrigues. cbn [s_sub s_div s_mul s_of_Z Scalar_R].
  generalize ((1 - c) / (s * s)). intros n.
  cbn. entries; ring.
Qed.

(** X18.  In exact arithmetic and for nonzero [a] and [b],
    [make_rotation(b, a)] is the transpose of [make_rotation(a, b)], in
    every branch. *)
Theorem make_rotation_swap (a0 a1 a2 b0 b1 b2 : R) :
  [a0; a1; a2] <> [0; 0; 0] -> [b0; b1; b2] <> [0; 0; 0] ->
  exists M : list (list R),
    make_rotation [a0; a1; a2] [b0; b1; b2] = Ok M
    /\ make_rotation [b0; b1; b2] [a0; a1; a2] = Ok (transpose M).
Proof.
  intros _ _. unfold make_rotation.
  cbn [normalize vdiv map cross bind].
  set (na := norm [a0; a1; a2]). set (nb := norm [b0; b1; b2]).
  cbn [s_sub s_mul s_div s_of_Z s_opp Scalar_R].
  set (u0 := a0 / na). set (u1 := a1 / na). set (u2 := a2 / na).
  set (w0 := b0 / nb). set (w1 := b1 / nb). set (w2 := b2 / nb).
  clearbody u0 u1 u2 w0 w1 w2. clear na nb.
  rewrite (dot3_comm u0 u1 u2 w0 w1 w2).
  rewrite (norm_cross_swap u0 u1 u2 w0 w1 w2).
  set (c := dot [u0; u1; u2] [w0; w1; w2]).
  set (v := [u1 * w2 - u2 * w1; u2 * w0 - u0 * w2; u0 * w1 - u1 * w0]).
  set (v' := [w1 * u2 - w2 * u1; w2 * u0 - w0 * u2; w0 * u1 - w1 * u0]).
  destruct (skew_symmetric_cross v) as [K |] eqn:HK; [| discriminate HK].
  destruct (skew_symmetric_cross v') as [K' |] eqn:HK'; [| discriminate HK'].
  cbn [bind].
  destruct (isclose c 1 (lit 1 10000)).
  { exists eye3. split; [reflexivity |]. cbn. entries. }
  destruct (isclose c (- (1)) (lit 1 10000)).
  { eexists. split; [reflexivity |]. cbn. entries. }
  pose proof (det3_rodrigues_nonneg c (norm v) HK) as Hd.
  pose proof (det3_rodrigues_nonneg c (norm v) HK') as Hd'.
  repeat match goal with
         | |- context [if ?b then _ else _] =>
             replace b with false
               by (symmetry; apply Rltb_false; first [exact Hd | exact Hd'])
         end.
  eexists. split; [reflexivity |]. f_equal.
  apply (@rodrigues_swap u0 u1 u2 w0 w1 w2 c (norm v) K K' HK HK').
Qed.

Lemma make_rotation_swap_e1_e2 :
  exists M : list (list R),
    make_rotation [1; 0; 0] [0; 1; 0] = Ok M
    /\ make_rotation [0; 1; 0] [1; 0; 0] = Ok (transpose M).
Proof.
  apply make_rotation_swap.
  - exact e1_nonzero.
  - exact e2_nonzero.
Defined.

Lemma normalize3_scale (a0 a1 a2 k : R) :
  [a0; a1; a2] <> [0; 0; 0] -> 0 < k ->
  normalize [a0 * k; a1 * k; a2 * k] = normalize [a0; a1; a2].
Proof.
  intros Ha Hk.
  assert (Hn : 0 < norm [a0; a1; a2]).
  { rewrite norm3_R. apply sqrt_lt_R0. apply nonzero3_sum_pos. exact Ha. }
  change [a0 * k; a1 * k; a2 * k] with (vscale [a0; a1; a2] k).
  unfold normalize. rewrite norm_vscale by lra.
  unfold vdiv, vscale. rewrite map_map. apply map_ext. intros x.
  cbn [s_mul s_div Scalar_R]. field. split; lra.
Qed.

(** X19.  In exact arithmetic, only the directions of the two vectors matter
    to [make_rotation]: multiplying nonzero [a] and [b] by positive factors
    does not change the result. *)
Theorem make_rotation_scale (a0 a1 a2 b0 b1 b2 k j : R) :
  [a0; a1; a2] <> [0; 0; 0] -> [b0; b1; b2] <> [0; 0; 0] ->
  0 < k -> 0 < j ->
  make_rotation [a0 * k; a1 * k; a2 * k] [b0 * j; b1 * j; b2 * j]
  = make_rotation [a0; a1; a2] [b0; b1; b2].
Proof.
  intros Ha Hb Hk Hj. unfold make_rotation.
  rewrite (normalize3_scale Ha Hk), (normalize3_scale Hb Hj). reflexivity.
Qed.

Lemma make_rotation_scale_e1_e2 :
  make_rotation [1 * 2; 0 * 2; 0 * 2] [0 * 3; 1 * 3; 0 * 3]
  = make_rotation [1; 0; 0] [0; 1; 0].
Proof.
  apply make_rotation_scale; try lra.
  - exact e1_nonzero.
  - exact e2_nonzero.
Defined.

Lemma isclose_opp_zero (t atol : R) : isclose (- t) 0 atol = isclose t 0 atol.
Proof.
  unfold isclose. cbn [s_abs s_sub Scalar_R].
  replace (- t - 0) with (- (t - 0)) by ring. rewrite Rabs_Ropp. reflexivity.
Qed.

(** X20.  In exact arithmetic, [q] and [-q] give the same result, as long as
    [q.w] is not 0: the sign test [q[3] < 0] brings both to the
    representative with [w > 0]. *)
Theorem quat_to_rotvec_sign (x y z w : R) :
  w <> 0 ->
  quat_to_rotvec [- x; - y; - z; - w] = quat_to_rotvec [x; y; z; w].
Proof.
  intros Hw. unfold quat_to_rotvec.
  cbn [firstn forallb s_of_Z Scalar_R]. rewrite !isclose_opp_zero.
  destruct (isclose x 0 (lit 1 100000000) && (isclose y 0 (lit 1 100000000)
              && (isclose z 0 (lit 1 100000000) && true))); [reflexivity |].
  cbn [getitem nth_error bind s_ltb Scalar_R].
  destruct (Rlt_dec w 0) as [Hneg | Hpos].
  - rewrite (Rltb_true Hneg).
    rewrite (Rltb_false (x := - w) (y := 0)) by lra.
    reflexivity.
  - rewrite (Rltb_false (x := w) (y := 0)) by lra.
    rewrite (Rltb_true (x := - w) (y := 0)) by lra.
    cbn [map s_opp Scalar_R]. rewrite !Ropp_involutive. reflexivity.
Qed.

Lemma quat_to_rotvec_sign_1001 :
  quat_to_rotvec [- (1); - 0; - 0; - (1)] = quat_to_rotvec [1; 0; 0; 1].
Proof. apply quat_to_rotvec_sign. lra. Defined.

End RotationsOverReals.

(** ** quaternion_matrix and euler_to_quat, in exact arithmetic *)

Section QuaternionsOverReals.
Local Open Scope R_scope.

Lemma EPS_pos : 0 < EPS.
Proof. unfold EPS, lit. cbn. lra. Qed.

Lemma dot4_R (x y z w : R) :
  dot [x; y; z; w] [x; y; z; w] = x * x + y * y + z * z + w * w.
Proof. unfold dot. cbn. ring. Qed.

Lemma quaternion_matrix_R (x y z w : R) (rest : list R) :
  let nq := x * x + y * y + z * z + w * w in
  quaternion_matrix (x :: y :: z :: w :: rest)
  = Ok (if Rltb nq EPS then eye3 else rotation_of x y z w (2 / nq)).
Proof.
  intros nq. unfold quaternion_matrix, trans.quaternion_matrix.
  cbn [firstn]. rewrite dot4_R. fold nq. fold EPS.
  cbn [s_ltb Scalar_R].
  destruct (Rltb nq EPS) eqn:E.
  - cbn. unfold eye3. cbn. entries; field.
  - assert (Hnq : EPS <= nq).
    { unfold Rltb in E. destruct (Rlt_dec nq EPS); [discriminate | lra]. }
    pose proof EPS_pos as HE.
    assert (Hs : sqrt (2 / nq) * sqrt (2 / nq) = 2 / nq).
    { apply sqrt_sqrt. apply Rlt_le. apply Rdiv_lt_0_compat; lra. }
    cbn [s_sqrt s_div s_of_Z Scalar_R]. 
    generalize dependent (sqrt (2 / nq)). intros s Hs.
    generalize dependent (2 / nq). intros k Hs.
    cbn. unfold rotation_of. entries; rewrite <- Hs; field.
Qed.

Lemma rotation_of_is_rotation (x y z w k : R) :
  k * (x * x + y * y + z * z + w * w) = 2 ->
  is_rotation (rotation_of x y z w k).
Proof.
  intros Hk. unfold is_rotation, rotation_of. split.
  - cbn. unfold eye3. cbn [s_of_Z Scalar_R]. entries; nsatz.
  - cbn. nsatz.
Qed.

(** X21.  In exact arithmetic, whatever the four components of the
    quaternion (normalised or not, zero included), [quaternion_matrix]
    returns a 3x3 rotation matrix: orthogonal, of determinant 1.  Components
    after the fourth are ignored. *)
Theorem quaternion_matrix_is_rotation (x y z w : R) (rest : list R) :
  exists M : list (list R),
    quaternion_matrix (x :: y :: z :: w :: rest) = Ok M /\ is_rotation M.
Proof.
  rewrite quaternion_matrix_R. eexists. split; [reflexivity |].
  destruct (Rltb _ EPS) eqn:E.
  - apply eye3_is_rotation.
  - apply rotation_of_is_rotation.
    assert (Hnq : EPS <= x * x + y * y + z * z + w * w).
    { unfold Rltb in E. destruct (Rlt_dec _ EPS); [discriminate | lra]. }
    pose proof EPS_pos. field. lra.
Qed.


(** X22.  In exact arithmetic, [quaternion_matrix] returns the same matrix
    for a quaternion and for its negative. *)
Theorem quaternion_matrix_sign (x y z w : R) :
  quaternion_matrix [- x; - y; - z; - w] = quaternion_matrix [x; y; z; w].
Proof.
  rewrite !quaternion_matrix_R.
  replace (- x * - x + - y * - y + - z * - z + - w * - w)
    with (x * x + y * y + z * z + w * w) by ring.
  destruct (Rltb _ EPS); [reflexivity |].
  unfold rotation_of. entries; ring.
Qed.

(** X23.  In exact arithmetic, a quaternion whose squared norm is below
    [_EPS = 2^-50], the zero quaternion among them, gives the identity
    matrix and no error. *)
Theorem quaternion_matrix_degenerate (x y z w : R) (rest : list R) :
  x * x + y * y + z * z + w * w < EPS ->
  quaternion_matrix (x :: y :: z :: w :: rest) = Ok eye3.
Proof.
  intros H. rewrite quaternion_matrix_R. rewrite (Rltb_true H). reflexivity.
Qed.

Lemma quaternion_matrix_degenerate_zero :
  quaternion_matrix [0; 0; 0; 0] = Ok eye3.
Proof.
  apply quaternion_matrix_degenerate. unfold EPS, lit. cbn. lra.
Defined.

(** X24.  In exact arithmetic, for unit quaternions [q1] and [q0], the
    matrix of [trans.quaternion_multiply(q1, q0)] is the product of
    [quaternion_matrix(q1)] and [quaternion_matrix(q0)]. *)
Theorem quaternion_matrix_multiply (x1 y1 z1 w1 x0 y0 z0 w0 : R) :
  x1 * x1 + y1 * y1 + z1 * z1 + w1 * w1 = 1 ->
  x0 * x0 + y0 * y0 + z0 * z0 + w0 * w0 = 1 ->
  exists (p : list R) (M1 M0 : list (list R)),
    trans.quaternion_multiply [x1; y1; z1; w1] [x0; y0; z0; w0] = Ok p
    /\ quaternion_matrix [x1; y1; z1; w1] = Ok M1
    /\ quaternion_matrix [x0; y0; z0; w0] = Ok M0
    /\ quaternion_matrix p = Ok (matmul M1 M0).
Proof.
  intros H1 H0. pose proof EPS_pos as HE.
  assert (Hlt : EPS < 1) by (unfold EPS, lit; cbn; lra).
  eexists. exists (rotation_of x1 y1 z1 w1 2), (rotation_of x0 y0 z0 w0 2).
  split; [reflexivity |].
  cbn [s_add s_sub s_mul s_opp Scalar_R].
  rewrite !quaternion_matrix_R.
  rewrite H1, H0.
  match goal with
  | |- context [Rltb ?n EPS] =>
      replace n with
        ((x1 * x1 + y1 * y1 + z1 * z1 + w1 * w1)
         * (x0 * x0 + y0 * y0 + z0 * z0 + w0 * w0)) by ring
  end.
  rewrite H1, H0. rewrite Rmult_1_r.
  rewrite !Rltb_false by lra.
  replace (2 / 1) with 2 by field.
  repeat split.
  unfold rotation_of. cbn. entries; nsatz.
Qed.

Lemma quaternion_matrix_multiply_1000_0001 :
  exists (p : list R) (M1 M0 : list (list R)),
    trans.quaternion_multiply [1; 0; 0; 0] [0; 0; 0; 1] = Ok p
    /\ quaternion_matrix [1; 0; 0; 0] = Ok M1
    /\ quaternion_matrix [0; 0; 0; 1] = Ok M0
    /\ quaternion_matrix p = Ok (matmul M1 M0).
Proof. apply quaternion_matrix_multiply; lra. Defined.

(** X25.  In exact arithmetic, for a unit quaternion [q], the vector part of
    [cq * v * q] is the transpose of [quaternion_matrix(q)] applied to the
    vector part of [v] (the rotation by the inverse of [q]), whatever the
    fourth component of [v]; [rotate_vect_by_quat] returns it with its second
    and third components negated. *)
Theorem rotate_vect_by_quat_matrix (v0 v1 v2 v3 x y z w : R) :
  x * x + y * y + z * z + w * w = 1 ->
  exists M : list (list R),
    quaternion_matrix [x; y; z; w] = Ok M
    /\ rotate_vect_by_quat [v0; v1; v2; v3] [x; y; z; w]
       = Ok (imul_from 1 (- (1)) (matvec (transpose M) [v0; v1; v2])).
Proof.
  intros H. pose proof EPS_pos as HE.
  assert (Hlt : EPS < 1) by (unfold EPS, lit; cbn; lra).
  rewrite quaternion_matrix_R. rewrite H.
  rewrite Rltb_false by lra. replace (2 / 1) with 2 by field.
  eexists. split; [reflexivity |].
  unfold rotation_of. cbn. unfold dot. cbn. entries; nsatz.
Qed.

Lemma rotate_vect_by_quat_matrix_0001 :
  exists M : list (list R),
    quaternion_matrix [0; 0; 0; 1] = Ok M
    /\ rotate_vect_by_quat [1; 2; 3; 0] [0; 0; 0; 1]
       = Ok (imul_from 1 (- (1)) (matvec (transpose M) [1; 2; 3])).
Proof. apply rotate_vect_by_quat_matrix. lra. Defined.

Lemma sin_cos_sqr (a : R) : sin a * sin a + cos a * cos a = 1.
Proof. pose proof (sin2_cos2 a) as H. unfold Rsqr in H. exact H. Qed.

(** X26.  In exact arithmetic, whatever the three angles, the message
    [euler_to_quat] returns holds a unit quaternion.  Entries of [rotvec]
    after the third are ignored. *)
Theorem euler_to_quat_unit (r0 r1 r2 : R) (rest : list R) :
  exists Q : geometry_msgs.Quaternion R,
    euler_to_quat (r0 :: r1 :: r2 :: rest) = Ok Q
    /\ geometry_msgs.x Q * geometry_msgs.x Q
       + geometry_msgs.y Q * geometry_msgs.y Q
       + geometry_msgs.z Q * geometry_msgs.z Q
       + geometry_msgs.w Q * geometry_msgs.w Q = 1.
Proof.
  eexists. split; [reflexivity |].
  cbn [geometry_msgs.x geometry_msgs.y geometry_msgs.z geometry_msgs.w].
  cbn [s_sub s_add s_mul s_div s_of_Z s_sin s_cos Scalar_R Circular_R].
  pose proof (sin_cos_sqr (r0 / 2)) as H0.
  pose proof (sin_cos_sqr (r1 / 2)) as H1.
  pose proof (sin_cos_sqr (r2 / 2)) as H2.
  generalize dependent (sin (r0 / 2)). generalize dependent (cos (r0 / 2)).
  generalize dependent (sin (r1 / 2)). generalize dependent (cos (r1 / 2)).
  generalize dependent (sin (r2 / 2)). generalize dependent (cos (r2 / 2)).
  intros. nsatz.
Qed.

(** In exact arithmetic, an angle [a] about one axis only gives the
    axis-angle quaternion of that axis: [(sin(a/2), 0, 0, cos(a/2))] for
    [(a, 0, 0)], [(0, sin(a/2), 0, cos(a/2))] for [(0, a, 0)] and
    [(0, 0, sin(a/2), cos(a/2))] for [(0, 0, a)]. *)
Theorem euler_to_quat_single_axis (a : R) :
  euler_to_quat [a; 0; 0]
  = Ok (geometry_msgs.Build_Quaternion (sin (a / 2)) 0 0 (cos (a / 2)))
  /\ euler_to_quat [0; a; 0]
     = Ok (geometry_msgs.Build_Quaternion 0 (sin (a / 2)) 0 (cos (a / 2)))
  /\ euler_to_quat [0; 0; a]
     = Ok (geometry_msgs.Build_Quaternion 0 0 (sin (a / 2)) (cos (a / 2))).
Proof.
  unfold euler_to_quat, trans.quaternion_from_euler.
  cbn [getitem nth_error bind].
  cbn [s_sub s_add s_mul s_div s_of_Z s_sin s_cos Scalar_R Circular_R].
  replace (0 / 2) with 0 by field. rewrite sin_0, cos_0.
  repeat split;
    match goal with
    | |- Ok (geometry_msgs.Build_Quaternion ?a ?b ?c ?d)
         = Ok (geometry_msgs.Build_Quaternion ?a' ?b' ?c' ?d') =>
        replace a with a' by ring; replace b with b' by ring;
        replace c with c' by ring; replace d with d' by ring; reflexivity
    end.
Qed.

End QuaternionsOverReals.

(** ** quat_to_euler and euler_to_quat, in exact arithmetic *)

Section EulerOverReals.
Local Open Scope R_scope.

Lemma Ratan2_scale (k y x : R) :
  0 < k -> Ratan2 (k * y) (k * x) = Ratan2 y x.
Proof.
  intros Hk. unfold Ratan2.
  destruct (Rlt_dec 0 x) as [Hx | Hx].
  - destruct (Rlt_dec 0 (k * x)) as [_ | H]; [| exfalso; nra].
    f_equal. field. split; lra.
  - destruct (Rlt_dec 0 (k * x)) as [H | _]; [exfalso; nra |].
    destruct (Rlt_dec x 0) as [Hx' | Hx'].
    + destruct (Rlt_dec (k * x) 0) as [_ | H]; [| exfalso; nra].
      replace (k * y / (k * x)) with (y / x) by (field; split; lra).
      destruct (Rle_dec 0 y); destruct (Rle_dec 0 (k * y));
        try reflexivity; exfalso; nra.
    + destruct (Rlt_dec (k * x) 0) as [H | _]; [exfalso; nra |].
      destruct (Rlt_dec 0 y); destruct (Rlt_dec 0 (k * y));
        try (exfalso; nra); try reflexivity.
      destruct (Rlt_dec y 0); destruct (Rlt_dec (k * y) 0);
        try (exfalso; nra); reflexivity.
Qed.

Lemma cos_neg_outside (a : R) :
  PI / 2 < a < PI \/ - PI < a < - (PI / 2) -> cos a < 0.
Proof.
  pose proof PI_RGT_0 as HPI.
  intros [H | H].
  - apply cos_lt_0; lra.
  - rewrite <- cos_neg. apply cos_lt_0; lra.
Qed.

Lemma tan_shift (a : R) : cos a <> 0 -> sin a / cos a = tan (a - PI).
Proof.
  intros Hc. unfold tan.
  pose proof (neg_sin (a - PI)) as Hs. pose proof (neg_cos (a - PI)) as Hc'.
  replace (a - PI + PI) with a in * by ring.
  assert (cos (a - PI) <> 0) by lra.
  rewrite Hs, Hc'. field. assumption.
Qed.

Lemma tan_shift' (a : R) : cos a <> 0 -> sin a / cos a = tan (a + PI).
Proof.
  intros Hc. unfold tan. rewrite neg_sin, neg_cos. field. assumption.
Qed.

(** [atan2] recovers an angle of [(-PI, PI)] from its sine and cosine. *)
Lemma Ratan2_sin_cos (a : R) : - PI < a < PI -> Ratan2 (sin a) (cos a) = a.
Proof.
  intros Ha. pose proof PI_RGT_0 as HPI. unfold Ratan2.
  destruct (Rlt_dec 0 (cos a)) as [Hc | Hc].
  - assert (Hr : - (PI / 2) < a < PI / 2).
    { split; apply Rnot_le_lt; intros Hle.
      - destruct (Req_dec a (- (PI / 2))) as [-> | Hne].
        + rewrite cos_neg, cos_PI2 in Hc. lra.
        + assert (cos a < 0) by (apply cos_neg_outside; right; lra). lra.
      - destruct (Req_dec a (PI / 2)) as [-> | Hne].
        + rewrite cos_PI2 in Hc. lra.
        + assert (cos a < 0) by (apply cos_neg_outside; left; lra). lra. }
    change (sin a / cos a) with (tan a). apply atan_tan. exact Hr.
  - destruct (Rlt_dec (cos a) 0) as [Hc' | Hc'].
    + destruct (Rle_dec 0 (sin a)) as [Hs | Hs].
      * assert (H0 : 0 <= a).
        { apply Rnot_lt_le. intros Hlt.
          assert (sin a < 0) by (apply sin_lt_0_var; lra). lra. }
        assert (H1 : PI / 2 < a).
        { apply Rnot_le_lt. intros Hle.
          assert (0 <= cos a) by (apply cos_ge_0; lra). lra. }
        rewrite tan_shift by lra. rewrite atan_tan by lra. ring.
      * assert (H0 : a < 0).
        { apply Rnot_le_lt. intros Hle.
          assert (0 <= sin a) by (apply sin_ge_0; lra). lra. }
        assert (H1 : a < - (PI / 2)).
        { apply Rnot_le_lt. intros Hle.
          assert (0 <= cos a) by (apply cos_ge_0; lra). lra. }
        rewrite tan_shift' by lra. rewrite atan_tan by lra. ring.
    + assert (Hz : cos a = 0) by lra.
      assert (Hcase : a = PI / 2 \/ a = - (PI / 2)).
      { destruct (Rtotal_order a (PI / 2)) as [Hlt | [Heq | Hgt]].
        - destruct (Rtotal_order a (- (PI / 2))) as [Hlt' | [Heq' | Hgt']].
          + assert (cos a < 0) by (apply cos_neg_outside; right; lra). lra.
          + right. exact Heq'.
          + assert (0 < cos a) by (apply cos_gt_0; lra). lra.
        - left. exact Heq.
        - assert (cos a < 0) by (apply cos_neg_outside; left; lra). lra. }
      destruct Hcase as [-> | ->].
      * rewrite sin_PI2. destruct (Rlt_dec 0 1); [reflexivity | lra].
      * rewrite sin_neg, sin_PI2.
        destruct (Rlt_dec 0 (- (1))); [lra |].
        destruct (Rlt_dec (- (1)) 0); [reflexivity | lra].
Qed.


Lemma sin_half (a : R) : sin a = 2 * sin (a / 2) * cos (a / 2).
Proof. rewrite <- sin_2a. f_equal. field. Qed.

Lemma cos_half (a : R) :
  cos a = cos (a / 2) * cos (a / 2) - sin (a / 2) * sin (a / 2).
Proof. rewrite <- cos_2a. f_equal. field. Qed.

Lemma trans_quaternion_matrix_unit (x y z w : R) :
  x * x + y * y + z * z + w * w = 1 ->
  trans.quaternion_matrix [x; y; z; w]
  = Ok (map (fun row => row ++ [0]) (rotation_of x y z w 2)
        ++ [[0; 0; 0; 1]]).
Proof.
  intros H. unfold trans.quaternion_matrix.
  cbn [firstn]. rewrite dot4_R, H.
  cbn [s_ltb Scalar_R]. rewrite Rltb_false by (unfold lit; cbn; lra).
  assert (Hs : sqrt (2 / 1) * sqrt (2 / 1) = 2).
  { rewrite sqrt_sqrt; lra. }
  cbn [s_sqrt s_div s_of_Z Scalar_R].
  generalize dependent (sqrt (2 / 1)). intros s Hs.
  cbn. unfold rotation_of. cbn. entries; rewrite <- Hs; ring.
Qed.

Lemma quaternion_from_euler_unit (r p y : R) :
  exists qx qy qz qw : R,
    trans.quaternion_from_euler r p y = [qx; qy; qz; qw]
    /\ qx * qx + qy * qy + qz * qz + qw * qw = 1
    /\ rotation_of qx qy qz qw 2 = euler_matrix r p y.
Proof.
  do 4 eexists. split; [reflexivity |].
  cbn [s_sub s_add s_mul s_div s_of_Z s_sin s_cos Scalar_R Circular_R].
  unfold rotation_of, euler_matrix.
  rewrite (sin_half r), (cos_half r), (sin_half p), (cos_half p),
    (sin_half y), (cos_half y).
  pose proof (sin_cos_sqr (r / 2)) as H0.
  pose proof (sin_cos_sqr (p / 2)) as H1.
  pose proof (sin_cos_sqr (y / 2)) as H2.
  generalize dependent (sin (r / 2)). generalize dependent (cos (r / 2)).
  generalize dependent (sin (p / 2)). generalize dependent (cos (p / 2)).
  generalize dependent (sin (y / 2)). generalize dependent (cos (y / 2)).
  intros. split; [nsatz |]. entries; nsatz.
Qed.


(** X27.  In exact arithmetic, the quaternion of [euler_to_quat((r, p, y))]
    stands for the turn by [r] about x, then by [p] about y, then by [y]
    about z (fixed axes): [quaternion_matrix] of its four fields is
    [Rz(y) Ry(p) Rx(r)]. *)
Theorem euler_to_quat_matrix (r p y : R) :
  exists Q : geometry_msgs.Quaternion R,
    euler_to_quat [r; p; y] = Ok Q
    /\ quaternion_matrix
         [geometry_msgs.x Q; geometry_msgs.y Q; geometry_msgs.z Q;
          geometry_msgs.w Q]
       = Ok (euler_matrix r p y).
Proof.
  destruct (quaternion_from_euler_unit r p y)
    as (qx & qy & qz & qw & HQ & Hn & HM).
  unfold euler_to_quat. cbn [getitem nth_error bind]. rewrite HQ.
  cbn [getitem nth_error bind].
  eexists. split; [reflexivity |].
  cbn [geometry_msgs.x geometry_msgs.y geometry_msgs.z geometry_msgs.w].
  rewrite quaternion_matrix_R, Hn.
  rewrite Rltb_false by (unfold EPS, lit; cbn; lra).
  replace (2 / 1) with 2 by field. rewrite HM. reflexivity.
Qed.

Lemma sqrt_cos_sqr (p y : R) :
  0 < cos p ->
  sqrt (cos y * cos p * (cos y * cos p) + sin y * cos p * (sin y * cos p))
  = cos p.
Proof.
  intros H.
  replace (cos y * cos p * (cos y * cos p) + sin y * cos p * (sin y * cos p))
    with ((sin y * sin y + cos y * cos y) * (cos p * cos p)) by ring.
  rewrite sin_cos_sqr, Rmult_1_l. apply sqrt_square. lra.
Qed.

(** X28.  Round trip, in exact arithmetic: for a first and a third angle
    strictly between [-PI] and [PI] and a second angle strictly between
    [-PI/2] and [PI/2] whose cosine exceeds [_EPS], [quat_to_euler] gives
    back the angles [euler_to_quat] was called on. *)
Theorem quat_to_euler_euler_to_quat (r p y : R) :
  - PI < r < PI -> - (PI / 2) < p < PI / 2 -> - PI < y < PI ->
  EPS < cos p ->
  (Q <- euler_to_quat [r; p; y] ;; quat_to_euler Q) = Ok [r; p; y].
Proof.
  intros Hr Hp Hy Hc. pose proof EPS_pos as HE.
  destruct (quaternion_from_euler_unit r p y)
    as (qx & qy & qz & qw & HQ & Hn & HM).
  unfold euler_to_quat. cbn [getitem nth_error bind]. rewrite HQ.
  cbn [getitem nth_error bind].
  unfold quat_to_euler.
  cbn [geometry_msgs.x geometry_msgs.y geometry_msgs.z geometry_msgs.w].
  unfold trans.euler_from_quaternion.
  rewrite (trans_quaternion_matrix_unit Hn). cbn [bind].
  rewrite HM. unfold euler_matrix, trans.euler_from_matrix.
  cbn [map firstn app getitem2 getitem nth_error bind].
  cbn [s_add s_mul s_opp s_sqrt s_ltb s_arctan2 Scalar_R Arctan2_R].
  rewrite (@sqrt_cos_sqr p y) by lra. fold EPS.
  rewrite (Rltb_true Hc). cbn [getitem nth_error bind].
  rewrite (Rmult_comm (sin y) (cos p)), (Rmult_comm (cos y) (cos p)).
  rewrite !Ratan2_scale by lra.
  rewrite Ropp_involutive.
  rewrite (Ratan2_sin_cos Hr), (Ratan2_sin_cos Hy).
  rewrite Ratan2_sin_cos by (pose proof PI_RGT_0; lra).
  reflexivity.
Qed.

Lemma quat_to_euler_euler_to_quat_zero :
  (Q <- euler_to_quat [0; 0; 0] ;; quat_to_euler Q) = Ok [0; 0; 0].
Proof.
  pose proof PI_RGT_0 as HPI.
  apply quat_to_euler_euler_to_quat; try lra.
  rewrite cos_0. unfold EPS, lit. cbn. lra.
Defined.


(** X29.  Gimbal lock, in exact arithmetic: at a second angle of [PI/2] the
    branch [cy <= _EPS] is taken and the round trip does not give the angles
    back: the third angle is set to 0 and the first one is the difference
    [r - y] of the first and third angles passed (for [r - y] strictly
    between [-PI] and [PI]). *)
Theorem quat_to_euler_gimbal_lock (r y : R) :
  - PI < r - y < PI ->
  (Q <- euler_to_quat [r; PI / 2; y] ;; quat_to_euler Q)
  = Ok [r - y; PI / 2; 0].
Proof.
  intros Hr. pose proof EPS_pos as HE. pose proof PI_RGT_0 as HPI.
  destruct (quaternion_from_euler_unit r (PI / 2) y)
    as (qx & qy & qz & qw & HQ & Hn & HM).
  unfold euler_to_quat. cbn [getitem nth_error bind]. rewrite HQ.
  cbn [getitem nth_error bind].
  unfold quat_to_euler.
  cbn [geometry_msgs.x geometry_msgs.y geometry_msgs.z geometry_msgs.w].
  unfold trans.euler_from_quaternion.
  rewrite (trans_quaternion_matrix_unit Hn). cbn [bind].
  rewrite HM. unfold euler_matrix, trans.euler_from_matrix.
  rewrite cos_PI2, sin_PI2.
  cbn [map firstn app getitem2 getitem nth_error bind].
  cbn [s_add s_mul s_opp s_sqrt s_ltb s_arctan2 s_of_Z Scalar_R Arctan2_R].
  replace (cos y * 0 * (cos y * 0) + sin y * 0 * (sin y * 0)) with 0 by ring.
  rewrite sqrt_0. fold EPS.
  rewrite Rltb_false by lra. cbn [getitem nth_error bind].
  replace (- (sin y * 1 * cos r - cos y * sin r)) with (sin (r - y))
    by (rewrite sin_minus; ring).
  replace (sin y * 1 * sin r + cos y * cos r) with (cos (r - y))
    by (rewrite cos_minus; ring).
  rewrite (Ratan2_sin_cos Hr).
  replace (Ratan2 (- - (1)) 0) with (PI / 2); [reflexivity |].
  unfold Ratan2.
  destruct (Rlt_dec 0 0); [lra |].
  destruct (Rlt_dec 0 (- - (1))); [reflexivity | lra].
Qed.

Lemma quat_to_euler_gimbal_lock_yaw :
  (Q <- euler_to_quat [0; PI / 2; 1] ;; quat_to_euler Q)
  = Ok [0 - 1; PI / 2; 0].
Proof.
  apply quat_to_euler_gimbal_lock. pose proof PI_RGT_0. pose proof PI2_3_2. lra.
Defined.

End EulerOverReals.

(** ** Effects on the arrays of the caller *)

Module InPlaceFacts.
Import InPlace.

Section Frame.
Context {T : Type} {ST : Scalar T}.
Implicit Types (h : heap T) (v q : view).

Lemma extends_refl h : extends h h.
Proof. exists []. symmetry. apply app_nil_r. Qed.

Lemma extends_unchanged h0 h : extends h0 h -> unchanged h0 h.
Proof.
  intros [ext ->] r a H. rewrite nth_error_app1; [assumption |].
  apply nth_error_Some. congruence.
Qed.

Lemma update_app_r {A : Type} (l1 l2 : list A) (i : nat) (f : A -> A) :
  (length l1 <= i)%nat ->
  update i f (l1 ++ l2) = l1 ++ update (i - length l1) f l2.
Proof.
  revert i. induction l1 as [| a l1 IH]; intros i Hi; cbn [length app].
  - rewrite Nat.sub_0_r. reflexivity.
  - destruct i as [| i]; [cbn in Hi; lia |].
    cbn [update Nat.sub length]. rewrite (IH i) by (cbn in Hi; lia).
    reflexivity.
Qed.

(** *** Rules *)

Lemma keeps_ret {A : Type} h0 (Q : A -> Prop) (a : A) :
  Q a -> keeps h0 Q (ret a).
Proof. intros H h Hh. split; [exact Hh |]. cbn. intros a' [= <-]. exact H. Qed.

Lemma keeps_lift {A : Type} h0 (r : result A) : keeps h0 any (lift r).
Proof. intros h Hh. split; [exact Hh |]. intros; exact I. Qed.

Lemma keeps_weaken {A : Type} h0 (Q : A -> Prop) (m : M T A) :
  keeps h0 Q m -> keeps h0 any m.
Proof. intros H h Hh. split; [apply (H h Hh) | intros; exact I]. Qed.

Lemma keeps_bind {A B : Type} h0 (Q : A -> Prop) (Q' : B -> Prop)
  (m : M T A) (k : A -> M T B) :
  keeps h0 Q m -> (forall a, Q a -> keeps h0 Q' (k a)) ->
  keeps h0 Q' (mbind m k).
Proof.
  intros Hm Hk h Hh. unfold mbind.
  destruct (Hm h Hh) as [He Hq].
  destruct (m h) as [[a | e] h'] eqn:E; cbn in *.
  - apply (Hk a (Hq a eq_refl) h' He).
  - split; [exact He | discriminate].
Qed.

Lemma keeps_get_vec h0 v : keeps h0 any (get_vec v).
Proof.
  intros h Hh. unfold get_vec.
  destruct (nth_error h (buf v)) as [[l | m | msg] |]; cbn; split; auto;
    intros; exact I.
Qed.

Lemma keeps_get_mat h0 (r : nat) : keeps h0 any (get_mat r).
Proof.
  intros h Hh. unfold get_mat.
  destruct (nth_error h r) as [[l | m | msg] |]; cbn; split; auto; intros; exact I.
Qed.

(** Allocation appends a buffer and returns its index. *)
Lemma keeps_alloc h0 (a : ndarray T) : keeps h0 (fresh_ref h0) (alloc a).
Proof.
  intros h [ext ->]. unfold alloc. cbn. split.
  - exists (ext ++ [a]). symmetry. apply app_assoc.
  - intros r [= <-]. unfold fresh_ref. rewrite length_app. lia.
Qed.

(** Writing is allowed into buffers that did not exist in [h0] only. *)
Lemma keeps_modify_vec h0 v (f : list T -> list T) :
  fresh h0 v -> keeps h0 any (modify_vec v f).
Proof.
  intros Hv h [ext ->]. unfold modify_vec.
  destruct (nth_error (h0 ++ ext) (buf v)) as [[l | m | msg] |]; cbn;
    (split; [| intros; exact I]); try (eexists; reflexivity).
  rewrite update_app_r by exact Hv. eexists; reflexivity.
Qed.

Lemma keeps_modify_mat h0 (r : nat)
  (f : list (list T) -> result (list (list T))) :
  fresh_ref h0 r -> keeps h0 any (modify_mat r f).
Proof.
  intros Hr h [ext ->]. unfold modify_mat.
  destruct (nth_error (h0 ++ ext) r) as [[l | m | msg] |]; cbn;
    try (split; [eexists; reflexivity | intros; exact I]).
  destruct (f m); cbn; (split; [| intros; exact I]).
  - rewrite update_app_r by exact Hr. eexists; reflexivity.
  - eexists; reflexivity.
Qed.

Lemma fresh_slice h0 v (a b : nat) : fresh h0 v -> fresh h0 (slice v a b).
Proof. exact (fun H => H). Qed.

Lemma fresh_slice_from h0 v (a : nat) : fresh h0 v -> fresh h0 (slice_from v a).
Proof. exact (fun H => H). Qed.

Create HintDb frame.
Hint Resolve keeps_lift keeps_get_vec keeps_get_mat keeps_alloc
  keeps_modify_vec keeps_modify_mat fresh_slice fresh_slice_from : frame.

(** One step through a monadic program: sequencing, return, a branch, or a
    call whose rule is in the database. *)
Ltac frame_step :=
  lazymatch goal with
  | |- keeps _ _ (mbind (if ?b then _ else _) _) =>
      eapply keeps_bind with (Q := any); [ destruct b | intros ? ? ]
  | |- keeps _ _ (mbind _ _) => eapply keeps_bind; [ | intros ? ? ]
  | |- keeps _ _ (ret _) => apply keeps_ret
  | |- keeps _ _ (if ?b then _ else _) => destruct b
  | |- keeps _ any _ =>
      first [ solve [eauto with frame]
            | eapply keeps_weaken; solve [eauto with frame] ]
  | |- keeps _ _ _ => solve [eauto with frame]
  | |- any _ => exact I
  | |- fresh _ _ => solve [eauto with frame]
  | |- fresh_ref _ _ => solve [eauto with frame]
  end.

Ltac frame := repeat frame_step.

(** *** NumPy and tf calls *)

Lemma keeps_new_vec h0 (l : list T) : keeps h0 (fresh h0) (new_vec l).
Proof. unfold new_vec. frame. Qed.

Lemma keeps_new_mat h0 (m : list (list T)) :
  keeps h0 (fresh_ref h0) (new_mat m).
Proof. unfold new_mat. frame. Qed.

Hint Resolve keeps_new_vec keeps_new_mat : frame.

Lemma keeps_np_getitem h0 v (i : nat) : keeps h0 any (np_getitem v i).
Proof. unfold np_getitem. frame. Qed.

Lemma keeps_np_getitem2 h0 (A i j : nat) : keeps h0 any (np_getitem2 A i j).
Proof. unfold np_getitem2. frame. Qed.

Lemma keeps_np_array h0 (l : list T) : keeps h0 (fresh h0) (np_array l).
Proof. unfold np_array. frame. Qed.

Lemma keeps_np_copy h0 v : keeps h0 (fresh h0) (np_copy v).
Proof. unfold np_copy. frame. Qed.

Lemma keeps_np_neg h0 v : keeps h0 (fresh h0) (np_neg v).
Proof. unfold np_neg. frame. Qed.

Lemma keeps_np_mul h0 v (k : T) : keeps h0 (fresh h0) (np_mul v k).
Proof. unfold np_mul. frame. Qed.

Lemma keeps_np_rmul h0 v (k : T) : keeps h0 (fresh h0) (np_rmul k v).
Proof. unfold np_rmul. frame. Qed.

Lemma keeps_np_div h0 v (k : T) : keeps h0 (fresh h0) (np_div v k).
Proof. unfold np_div. frame. Qed.

Lemma keeps_np_sub h0 v q : keeps h0 (fresh h0) (np_sub v q).
Proof. unfold np_sub. frame. Qed.

Lemma keeps_np_norm h0 v : keeps h0 any (np_norm v).
Proof. unfold np_norm. frame. Qed.

Lemma keeps_np_dot h0 v q : keeps h0 any (np_dot v q).
Proof. unfold np_dot. frame. Qed.

Lemma keeps_np_cross h0 v q : keeps h0 (fresh h0) (np_cross v q).
Proof. unfold np_cross. frame. Qed.

Lemma keeps_np_all_isclose h0 v (b atol : T) :
  keeps h0 any (np_all_isclose v b atol).
Proof. unfold np_all_isclose. frame. Qed.

Lemma keeps_np_imul_from h0 v (i : nat) (k : T) :
  fresh h0 v -> keeps h0 any (np_imul_from v i k).
Proof. intros. unfold np_imul_from. frame. Qed.

Lemma keeps_np_idiv h0 v (k : T) : fresh h0 v -> keeps h0 any (np_idiv v k).
Proof. intros. unfold np_idiv. frame. Qed.

Lemma keeps_np_eye3 h0 : keeps h0 (fresh_ref h0) np_eye3.
Proof. unfold np_eye3. frame. Qed.

Lemma keeps_np_zeros h0 (r c : nat) : keeps h0 (fresh_ref h0) (np_zeros r c).
Proof. unfold np_zeros. frame. Qed.

Lemma keeps_np_madd h0 (A B : nat) : keeps h0 (fresh_ref h0) (np_madd A B).
Proof. unfold np_madd. frame. Qed.

Lemma keeps_np_mscale32 h0 (A : nat) (k : T) :
  keeps h0 (fresh_ref h0) (np_mscale32 A k).
Proof. unfold np_mscale32. frame. Qed.

Lemma keeps_np_matrix_power2 h0 (A : nat) :
  keeps h0 (fresh_ref h0) (np_matrix_power2 A).
Proof. unfold np_matrix_power2. frame. Qed.

Lemma keeps_np_det h0 (A : nat) : keeps h0 any (np_det A).
Proof. unfold np_det. frame. Qed.

Lemma keeps_np_imul h0 v (k : T) : fresh h0 v -> keeps h0 any (np_imul v k).
Proof. intros. unfold np_imul. frame. Qed.

Lemma keeps_np_outer h0 v q : keeps h0 (fresh_ref h0) (np_outer v q).
Proof. unfold np_outer. frame. Qed.

Lemma keeps_np_identity h0 (n : nat) : keeps h0 (fresh_ref h0) (np_identity n).
Proof. unfold np_identity. frame. Qed.

Hint Resolve keeps_np_getitem keeps_np_getitem2 keeps_np_array keeps_np_copy
  keeps_np_neg keeps_np_mul keeps_np_rmul keeps_np_div keeps_np_sub
  keeps_np_norm keeps_np_dot keeps_np_cross keeps_np_all_isclose
  keeps_np_imul_from keeps_np_idiv keeps_np_eye3 keeps_np_zeros keeps_np_madd
  keeps_np_mscale32 keeps_np_matrix_power2 keeps_np_det keeps_np_imul
  keeps_np_outer keeps_np_identity : frame.

Lemma keeps_quaternion_multiply h0 v q :
  keeps h0 (fresh h0) (quaternion_multiply v q).
Proof. unfold quaternion_multiply. frame. Qed.

Lemma keeps_unit_vector h0 v : keeps h0 (fresh h0) (unit_vector v).
Proof. unfold unit_vector. frame. Qed.

Lemma keeps_get_msg h0 (r : nat) : keeps h0 any (get_msg r).
Proof.
  intros h Hh. unfold get_msg.
  destruct (nth_error h r) as [[l | m | msg] |]; cbn; split; auto;
    intros; exact I.
Qed.

Lemma keeps_np_random_uniform h0 v q (sample : T * T * T) :
  keeps h0 (fresh h0) (np_random_uniform v q sample).
Proof.
  unfold np_random_uniform. destruct sample as [[u0 u1] u2]. frame.
Qed.

Lemma keeps_np_random_rand3 h0 (sample : T * T * T) :
  keeps h0 (fresh h0) (np_random_rand3 sample).
Proof.
  unfold np_random_rand3. destruct sample as [[u0 u1] u2]. frame.
Qed.

(** Indexing an array of one axis gives numbers. *)
Lemma keeps_np_item_one_axis h0 v (i : nat) :
  keeps h0 (fresh_item h0) (np_item OneAxis v i).
Proof.
  unfold np_item. eapply keeps_bind; [apply keeps_np_getitem |].
  intros x _. apply keeps_ret. exact I.
Qed.

(** An augmented assignment writes into its target only when the target is
    an array. *)
Lemma keeps_idiv h0 (x : item) (k : T) :
  fresh_item h0 x -> keeps h0 (fresh_item h0) (idiv x k).
Proof.
  intros Hx. destruct x as [n | w]; cbn [idiv].
  - apply keeps_ret. exact I.
  - eapply keeps_bind; [apply keeps_np_idiv; exact Hx |].
    intros _ _. apply keeps_ret. exact Hx.
Qed.

Lemma keeps_to_float h0 (x : item) : keeps h0 any (to_float x).
Proof.
  destruct x as [n | w]; cbn [to_float].
  - apply keeps_ret. exact I.
  - eapply keeps_bind; [apply keeps_get_vec |].
    intros l _. destruct l as [| n [| n' l]]; frame.
Qed.

Hint Resolve keeps_get_msg keeps_np_random_uniform keeps_np_random_rand3
  keeps_np_item_one_axis keeps_idiv keeps_to_float : frame.

Lemma keeps_math_cos {TC : Circular T} h0 (x : item) :
  keeps h0 any (math_cos x).
Proof. unfold math_cos. frame. Qed.

Lemma keeps_math_sin {TC : Circular T} h0 (x : item) :
  keeps h0 any (math_sin x).
Proof. unfold math_sin. frame. Qed.

Hint Resolve keeps_math_cos keeps_math_sin : frame.

Lemma keeps_quaternion_from_euler {TC : Circular T} h0 (ai aj ak : item) :
  fresh_item h0 ai -> fresh_item h0 aj -> fresh_item h0 ak ->
  keeps h0 (fresh h0) (quaternion_from_euler ai aj ak).
Proof. intros. unfold quaternion_from_euler. frame. Qed.

Lemma keeps_random_quaternion {TC : Circular T} {TP : Pi T} h0
  (sample : T * T * T) :
  keeps h0 (fresh h0) (random_quaternion sample).
Proof. unfold random_quaternion. frame. Qed.

Lemma keeps_numpy_quat_pair_to_pose h0 v q :
  keeps h0 any (numpy_quat_pair_to_pose v q).
Proof.
  unfold numpy_quat_pair_to_pose.
  eapply keeps_bind; [apply keeps_get_vec |]. intros t _.
  eapply keeps_bind; [apply keeps_get_vec |]. intros l _.
  destruct t as [| t0 [| t1 [| t2 [| t3 t]]]]; try (apply keeps_lift);
    destruct l as [| q0 [| q1 [| q2 [| q3 [| q4 l]]]]];
    first [apply keeps_lift | apply keeps_ret; exact I].
Qed.

Lemma keeps_trans_quaternion_matrix h0 q :
  keeps h0 (fresh_ref h0) (trans_quaternion_matrix q).
Proof. unfold trans_quaternion_matrix. frame. Qed.

Hint Resolve keeps_quaternion_multiply keeps_unit_vector
  keeps_trans_quaternion_matrix keeps_quaternion_from_euler
  keeps_random_quaternion keeps_numpy_quat_pair_to_pose : frame.

Lemma keeps_euler_from_matrix {TA : Arctan2 T} h0 (matrix : nat) :
  keeps h0 any (euler_from_matrix matrix).
Proof. unfold euler_from_matrix. frame. Qed.

Hint Resolve keeps_euler_from_matrix : frame.

Lemma keeps_euler_from_quaternion {TA : Arctan2 T} h0 q :
  keeps h0 any (euler_from_quaternion q).
Proof. unfold euler_from_quaternion. frame. Qed.

Hint Resolve keeps_euler_from_quaternion : frame.

(** *** The routines of the module *)

Lemma keeps_rotate_vect_by_quat h0 v q :
  keeps h0 (fresh h0) (rotate_vect_by_quat v q).
Proof. unfold rotate_vect_by_quat. frame. Qed.

Lemma keeps_skew_symmetric_cross h0 v :
  keeps h0 (fresh_ref h0) (skew_symmetric_cross v).
Proof. unfold skew_symmetric_cross. frame. Qed.

Lemma keeps_deskew h0 (A : nat) : keeps h0 (fresh h0) (deskew A).
Proof. unfold deskew. frame. Qed.

Lemma keeps_normalize h0 v : keeps h0 (fresh h0) (normalize v).
Proof. unfold normalize. frame. Qed.

Hint Resolve keeps_skew_symmetric_cross keeps_normalize : frame.

Lemma keeps_make_rotation h0 v q :
  keeps h0 (fresh_ref h0) (make_rotation v q).
Proof. unfold make_rotation. frame. Qed.

Lemma keeps_compose_transformation h0 (R : nat) v :
  keeps h0 (fresh_ref h0) (compose_transformation R v).
Proof. unfold compose_transformation. frame. Qed.

Lemma keeps_project_pt_to_plane h0 v q :
  keeps h0 (fresh h0) (project_pt_to_plane v q).
Proof. unfold project_pt_to_plane. frame. Qed.

Lemma keeps_clip_norm h0 v (lower upper : T) :
  keeps h0 (fresh h0) (clip_norm v lower upper).
Proof. unfold clip_norm. frame. Qed.

Lemma keeps_quat_to_rotvec {TT : Trig T} h0 q :
  keeps h0 (fresh h0) (quat_to_rotvec q).
Proof. unfold quat_to_rotvec. frame. Qed.

Lemma keeps_quaternion_matrix h0 q :
  keeps h0 (fresh_ref h0) (quaternion_matrix q).
Proof. unfold quaternion_matrix. frame. Qed.

Lemma keeps_quat_to_euler {TA : Arctan2 T} h0 (q : nat) :
  keeps h0 (fresh h0) (quat_to_euler q).
Proof. unfold quat_to_euler. frame. Qed.

(** On an array of one axis the three angles are numbers, and the halving
    in the library rebinds local names. *)
Lemma keeps_euler_to_quat_one_axis {TC : Circular T} h0 v :
  keeps h0 any (euler_to_quat OneAxis v).
Proof. unfold euler_to_quat. frame. Qed.

Lemma keeps_random_pose {TC : Circular T} {TP : Pi T} h0 v q
  (uniform rand : T * T * T) :
  keeps h0 any (random_pose v q uniform rand).
Proof. unfold random_pose. frame. Qed.

(** From a rule to the store a call leaves behind and the value it returns. *)
Lemma keeps_store {A : Type} h (Q : A -> Prop) (m : M T A) :
  keeps h Q m -> unchanged h (snd (m h)).
Proof.
  intros H. apply extends_unchanged. apply (H h (extends_refl h)).
Qed.

Lemma keeps_value {A : Type} h (Q : A -> Prop) (m : M T A) :
  keeps h Q m -> forall a, fst (m h) = Ok a -> Q a.
Proof. intros H. apply (H h (extends_refl h)). Qed.

End Frame.

(** *** Agreement with the routines on values

    Run on a store in which its arguments show the arrays [l], [l'], each
    routine returns (or raises) what the routine on values does on [l], [l']. *)

Section Refinement.
Context {T : Type} {ST : Scalar T}.
Implicit Types (h : heap T) (v q : view) (l : list T).

Lemma run_get_vec h v l : reads h v l -> get_vec v h = (Ok l, h).
Proof. intros [b [Hb <-]]. unfold get_vec. rewrite Hb. reflexivity. Qed.

Lemma reads_alloc h v l (a : ndarray T) : reads h v l -> reads (h ++ [a]) v l.
Proof.
  intros [b [Hb Hw]]. exists b. split; [| exact Hw].
  rewrite nth_error_app1; [exact Hb |]. apply nth_error_Some. congruence.
Qed.

Lemma window_whole (b : nat) l : window (View b 0 (length l)) l = l.
Proof. unfold window. cbn. rewrite Nat.sub_0_r. apply firstn_all. Qed.

Lemma reads_new h l : reads (h ++ [Vec l]) (View (length h) 0 (length l)) l.
Proof.
  exists l. split.
  - cbn. rewrite nth_error_app2 by lia. rewrite Nat.sub_diag. reflexivity.
  - apply window_whole.
Qed.

Lemma reads_slice0 h v l (b : nat) :
  reads h v l -> reads h (slice v 0 b) (firstn b l).
Proof.
  intros [bf [Hb <-]]. exists bf. split; [exact Hb |].
  unfold window, slice. cbn [lo hi buf]. rewrite Nat.add_0_r.
  rewrite firstn_firstn.
  destruct (Nat.le_gt_cases (lo v) (hi v)) as [Hle | Hgt].
  - rewrite (Nat.min_l (lo v) (hi v)) by exact Hle.
    f_equal. lia.
  - rewrite (Nat.min_r (lo v) (hi v)) by lia.
    replace (Nat.min (lo v + b) (hi v) - hi v)%nat with 0%nat by lia.
    replace (Nat.min b (hi v - lo v)) with 0%nat by lia.
    reflexivity.
Qed.

Lemma mbind_run {A B : Type} (m : M T A) (k : A -> M T B) h r h' :
  m h = (r, h') ->
  mbind m k h = match r with Ok a => k a h' | Raise e => (Raise e, h') end.
Proof. intros E. unfold mbind. rewrite E. reflexivity. Qed.

Lemma run_new_vec h l :
  new_vec l h = (Ok (View (length h) 0 (length l)), h ++ [Vec l]).
Proof. reflexivity. Qed.

Lemma run_np_norm h v l : reads h v l -> np_norm v h = (Ok (norm l), h).
Proof.
  intros H. unfold np_norm. rewrite (@mbind_run _ _ _ _ _ _ _ (run_get_vec H)). reflexivity.
Qed.

Lemma run_np_copy h v l :
  reads h v l -> np_copy v h = (Ok (View (length h) 0 (length l)), h ++ [Vec l]).
Proof.
  intros H. unfold np_copy. rewrite (@mbind_run _ _ _ _ _ _ _ (run_get_vec H)). reflexivity.
Qed.

Lemma run_np_mul h v l (k : T) :
  reads h v l ->
  np_mul v k h = (Ok (View (length h) 0 (length (vscale l k))), h ++ [Vec (vscale l k)]).
Proof.
  intros H. unfold np_mul. rewrite (@mbind_run _ _ _ _ _ _ _ (run_get_vec H)). reflexivity.
Qed.

Lemma run_np_div h v l (k : T) :
  reads h v l ->
  np_div v k h = (Ok (View (length h) 0 (length (vdiv l k))), h ++ [Vec (vdiv l k)]).
Proof.
  intros H. unfold np_div. rewrite (@mbind_run _ _ _ _ _ _ _ (run_get_vec H)). reflexivity.
Qed.

Lemma value_of_new h l :
  value_of (Ok (View (length h) 0 (length l)), h ++ [Vec l]) = Ok l.
Proof.
  unfold value_of. cbn [fst snd]. rewrite (run_get_vec (reads_new h l)). reflexivity.
Qed.

(** On a store where [v] shows the array [l], the array returned by
    [clip_norm] over the store is the array [clip_norm] computes from [l]. *)
Theorem clip_norm_refines h v l (lower upper : T) :
  reads h v l ->
  value_of (clip_norm v lower upper h) = Ok (geometry_helpers.clip_norm l lower upper).
Proof.
  intros H. unfold clip_norm, geometry_helpers.clip_norm.
  rewrite (@mbind_run _ _ _ _ _ _ _ (run_np_norm H)).
  destruct (andb _ _).
  - rewrite (run_np_copy H). apply value_of_new.
  - destruct (s_ltb _ _).
    + rewrite (@mbind_run _ _ _ _ _ _ _ (run_np_mul _ H)).
      rewrite (run_np_div _ (reads_new _ _)). apply value_of_new.
    + rewrite (@mbind_run _ _ _ _ _ _ _ (run_np_mul _ H)).
      rewrite (run_np_div _ (reads_new _ _)). apply value_of_new.
Qed.

Lemma run_np_getitem h v l (i : nat) :
  reads h v l -> np_getitem v i h = (getitem l i, h).
Proof.
  intros H. unfold np_getitem. rewrite (@mbind_run _ _ _ _ _ _ _ (run_get_vec H)).
  reflexivity.
Qed.

Lemma run_np_neg h v l :
  reads h v l ->
  np_neg v h = (Ok (View (length h) 0 (length (map s_opp l))), h ++ [Vec (map s_opp l)]).
Proof.
  intros H. unfold np_neg. rewrite (@mbind_run _ _ _ _ _ _ _ (run_get_vec H)). reflexivity.
Qed.

Lemma run_np_dot h v q l l' :
  reads h v l -> reads h q l' -> np_dot v q h = (Ok (dot l l'), h).
Proof.
  intros H H'. unfold np_dot.
  rewrite (@mbind_run _ _ _ _ _ _ _ (run_get_vec H)).
  rewrite (@mbind_run _ _ _ _ _ _ _ (run_get_vec H')). reflexivity.
Qed.

Lemma run_np_all_isclose h v l (b atol : T) :
  reads h v l ->
  np_all_isclose v b atol h = (Ok (forallb (fun x => isclose x b atol) l), h).
Proof.
  intros H. unfold np_all_isclose.
  rewrite (@mbind_run _ _ _ _ _ _ _ (run_get_vec H)). reflexivity.
Qed.

Lemma run_quaternion_multiply h v q l l' :
  reads h v l -> reads h q l' ->
  quaternion_multiply v q h =
  match trans.quaternion_multiply l l' with
  | Ok p => (Ok (View (length h) 0 (length p)), h ++ [Vec p])
  | Raise e => (Raise e, h)
  end.
Proof.
  intros H H'. unfold quaternion_multiply.
  rewrite (@mbind_run _ _ _ _ _ _ _ (run_get_vec H)).
  rewrite (@mbind_run _ _ _ _ _ _ _ (run_get_vec H')).
  unfold mbind, lift.
  destruct (trans.quaternion_multiply l l'); reflexivity.
Qed.

Lemma run_quaternion_multiply_ok h v q l l' p :
  reads h v l -> reads h q l' ->
  trans.quaternion_multiply l l' = Ok p ->
  quaternion_multiply v q h
  = (Ok (View (length h) 0 (length p)), h ++ [Vec p]).
Proof.
  intros H H' E. rewrite (run_quaternion_multiply H H'), E. reflexivity.
Qed.

Lemma run_quaternion_multiply_raise h v q l l' e :
  reads h v l -> reads h q l' ->
  trans.quaternion_multiply l l' = Raise e ->
  quaternion_multiply v q h = (Raise e, h).
Proof.
  intros H H' E. rewrite (run_quaternion_multiply H H'), E. reflexivity.
Qed.

Lemma update_last {A : Type} (l : list A) (a : A) (f : A -> A) :
  update (length l) f (l ++ [a]) = l ++ [f a].
Proof. induction l as [| x l IH]; cbn; [reflexivity | rewrite IH; reflexivity]. Qed.

Lemma nth_error_last {A : Type} (l : list A) (a : A) :
  nth_error (l ++ [a]) (length l) = Some a.
Proof. rewrite nth_error_app2 by lia. rewrite Nat.sub_diag. reflexivity. Qed.

(** Writing through [w[i:]] for the whole-buffer view [w] of the last buffer. *)
Lemma run_np_imul_from_new h l (i : nat) (k : T) :
  np_imul_from (View (length h) 0 (length l)) i k (h ++ [Vec l])
  = (Ok tt, h ++ [Vec (imul_from i k l)]).
Proof.
  unfold np_imul_from, modify_vec, slice_from. cbn [buf lo hi].
  rewrite nth_error_last, update_last. do 3 f_equal.
  unfold window, imul_from. cbn [lo hi]. rewrite Nat.add_0_l.
  destruct (Nat.le_gt_cases i (length l)) as [Hi | Hi].
  - rewrite (Nat.min_l i (length l)) by exact Hi.
    rewrite (firstn_all2 (n := length l - i) (skipn i l))
      by (rewrite length_skipn; lia).
    rewrite length_skipn.
    rewrite (skipn_all2 (n := i + (length l - i)) l) by lia.
    rewrite app_nil_r. reflexivity.
  - rewrite (Nat.min_r i (length l)) by lia.
    rewrite Nat.sub_diag. cbn [firstn map length app].
    rewrite Nat.add_0_r, skipn_all, firstn_all.
    rewrite (firstn_all2 (n := i) l) by lia.
    rewrite (skipn_all2 (n := i) l) by lia.
    reflexivity.
Qed.

Lemma run_np_idiv_new h l (k : T) :
  np_idiv (View (length h) 0 (length l)) k (h ++ [Vec l])
  = (Ok tt, h ++ [Vec (vdiv l k)]).
Proof.
  unfold np_idiv, modify_vec. cbn [buf lo hi].
  rewrite nth_error_last, update_last. do 3 f_equal.
  rewrite window_whole. cbn [firstn app]. rewrite Nat.add_0_l.
  rewrite skipn_all, app_nil_r. reflexivity.
Qed.

Lemma length_imul_from (i : nat) (k : T) l : length (imul_from i k l) = length l.
Proof.
  unfold imul_from. rewrite length_app, length_map, <- length_app, firstn_skipn.
  reflexivity.
Qed.

Lemma length_vdiv l (k : T) : length (vdiv l k) = length l.
Proof. apply length_map. Qed.

Lemma run_unit_vector h v l :
  reads h v l ->
  unit_vector v h
  = (Ok (View (length h) 0 (length (trans.unit_vector l))),
     h ++ [Vec (trans.unit_vector l)]).
Proof.
  intros H. unfold unit_vector, trans.unit_vector.
  rewrite (@mbind_run _ _ _ _ _ _ _ (run_np_copy H)).
  rewrite (@mbind_run _ _ _ _ _ _ _ (run_np_dot (reads_new h l) (reads_new h l))).
  rewrite (@mbind_run _ _ _ _ _ _ _ (run_np_idiv_new h l _)).
  rewrite length_vdiv. reflexivity.
Qed.

(** On a store where [v] and [q] show the arrays [l] and [l'],
    [rotate_vect_by_quat] over the store returns the array, or raises the
    exception, that [rotate_vect_by_quat] gives on [l] and [l']: the in-place
    negation of the product and the final slice of its copy are the
    operations [imul_from 1] and [firstn 3] on values. *)
Theorem rotate_vect_by_quat_refines h v q l l' :
  reads h v l -> reads h q l' ->
  value_of (rotate_vect_by_quat v q h) = geometry_helpers.rotate_vect_by_quat l l'.
Proof.
  intros Hv Hq. unfold rotate_vect_by_quat, geometry_helpers.rotate_vect_by_quat.
  do 4 (rewrite (@mbind_run _ _ _ _ _ _ _ (run_np_getitem _ Hq));
        match goal with
        | |- context [getitem l' ?i] =>
            destruct (getitem l' i) as [? | ?]; [cbn [bind] | reflexivity]
        end).
  unfold np_array. rewrite (@mbind_run _ _ _ _ _ _ _ (run_new_vec h _)).
  destruct (trans.quaternion_multiply _ l) as [cq_v | e] eqn:E1.
  2:{ rewrite (@mbind_run _ _ _ _ _ _ _
                 (run_quaternion_multiply_raise (reads_new h _) (reads_alloc _ Hv) E1)).
      reflexivity. }
  rewrite (@mbind_run _ _ _ _ _ _ _
             (run_quaternion_multiply_ok (reads_new h _) (reads_alloc _ Hv) E1)).
  cbn [bind].
  destruct (trans.quaternion_multiply cq_v l') as [p | e] eqn:E2.
  2:{ rewrite (@mbind_run _ _ _ _ _ _ _
                 (run_quaternion_multiply_raise (reads_new _ _)
                    (reads_alloc _ (reads_alloc _ Hq)) E2)).
      reflexivity. }
  rewrite (@mbind_run _ _ _ _ _ _ _
             (run_quaternion_multiply_ok (reads_new _ _)
                (reads_alloc _ (reads_alloc _ Hq)) E2)).
  cbn [bind].
  rewrite (@mbind_run _ _ _ _ _ _ _ (run_np_imul_from_new _ p 1 _)).
  rewrite <- (length_imul_from 1 (s_of_Z (-1)) p).
  rewrite (@mbind_run _ _ _ _ _ _ _ (run_np_copy (reads_new _ _))).
  unfold ret, value_of. cbn [fst snd].
  rewrite (run_get_vec (reads_slice0 3 (reads_new _ _))). reflexivity.
Qed.

(** On a store where [v] shows the array [l], [normalize] over the
    store returns the array [normalize l]. *)
Theorem normalize_refines h v l :
  reads h v l -> value_of (normalize v h) = Ok (geometry_helpers.normalize l).
Proof.
  intros H. unfold normalize, geometry_helpers.normalize.
  rewrite (@mbind_run _ _ _ _ _ _ _ (run_np_norm H)).
  rewrite (run_np_div _ H). apply value_of_new.
Qed.

(** On a store where [q] shows the array [l], [quat_to_rotvec] over
    the store returns the array, or raises the exception, that
    [quat_to_rotvec] gives on [l]: rebinding [q] to [-q] and to the unit
    quaternion allocates, and the views [q[0:3]] are read only. *)
Theorem quat_to_rotvec_refines {TT : Trig T} h q l :
  reads h q l ->
  value_of (quat_to_rotvec q h) = geometry_helpers.quat_to_rotvec l.
Proof.
  intros H. unfold quat_to_rotvec, geometry_helpers.quat_to_rotvec.
  rewrite (@mbind_run _ _ _ _ _ _ _ (run_np_all_isclose _ _ (reads_slice0 3 H))).
  destruct (forallb _ _).
  - unfold np_array. rewrite run_new_vec. apply value_of_new.
  - rewrite (@mbind_run _ _ _ _ _ _ _ (run_np_getitem 3 H)).
    destruct (getitem l 3) as [q3 | e]; [cbn [bind] | reflexivity].
    assert (Hq : exists h1 q1,
               (if s_ltb q3 (s_of_Z 0) then np_neg q else ret q) h = (Ok q1, h1)
               /\ reads h1 q1 (if s_ltb q3 (s_of_Z 0) then map s_opp l else l)).
    { destruct (s_ltb q3 (s_of_Z 0)).
      - do 2 eexists. split; [apply (run_np_neg H) | apply reads_new].
      - exists h, q. split; [reflexivity | exact H]. }
    destruct Hq as (h1 & q1 & Hrun & Hq1).
    rewrite (@mbind_run _ _ _ _ _ _ _ Hrun).
    set (l1 := if s_ltb q3 (s_of_Z 0) then map s_opp l else l) in *.
    rewrite (@mbind_run _ _ _ _ _ _ _ (run_unit_vector Hq1)).
    rewrite (@mbind_run _ _ _ _ _ _ _ (run_np_getitem 3 (reads_new _ _))).
    destruct (getitem (trans.unit_vector l1) 3) as [w | e]; [cbn [bind] | reflexivity].
    rewrite (@mbind_run _ _ _ _ _ _ _ (run_np_norm (reads_new _ _))).
    rewrite (@mbind_run _ _ _ _ _ _ _ (run_np_div _ (reads_slice0 3 (reads_new _ _)))).
    rewrite (run_np_mul _ (reads_new _ _)). apply value_of_new.
Qed.

Lemma run_np_imul_new h l (k : T) :
  np_imul (View (length h) 0 (length l)) k (h ++ [Vec l])
  = (Ok tt, h ++ [Vec (vscale l k)]).
Proof.
  unfold np_imul, modify_vec. cbn [buf lo hi].
  rewrite nth_error_last, update_last. do 3 f_equal.
  rewrite window_whole. cbn [firstn app]. rewrite Nat.add_0_l.
  rewrite skipn_all, app_nil_r. reflexivity.
Qed.

Lemma length_vscale l (k : T) : length (vscale l k) = length l.
Proof. apply length_map. Qed.

Lemma run_np_outer h v q l l' :
  reads h v l -> reads h q l' ->
  np_outer v q h = (Ok (length h), h ++ [Mat (outer l l')]).
Proof.
  intros H H'. unfold np_outer.
  rewrite (@mbind_run _ _ _ _ _ _ _ (run_get_vec H)).
  rewrite (@mbind_run _ _ _ _ _ _ _ (run_get_vec H')). reflexivity.
Qed.

Lemma run_get_mat_last h (m : list (list T)) :
  get_mat (length h) (h ++ [Mat m]) = (Ok m, h ++ [Mat m]).
Proof. unfold get_mat. rewrite nth_error_last. reflexivity. Qed.

Lemma run_np_getitem2_last h (m : list (list T)) (i j : nat) :
  np_getitem2 (length h) i j (h ++ [Mat m]) = (getitem2 m i j, h ++ [Mat m]).
Proof.
  unfold np_getitem2.
  rewrite (@mbind_run _ _ _ _ _ _ _ (run_get_mat_last h m)). reflexivity.
Qed.

Lemma matrix_of_new h (m : list (list T)) :
  matrix_of (Ok (length h), h ++ [Mat m]) = Ok m.
Proof.
  unfold matrix_of. cbn [fst snd]. rewrite run_get_mat_last. reflexivity.
Qed.

(** The library call on a store: a matrix in a new last buffer, or the
    exception, as on values. *)
Lemma run_trans_quaternion_matrix h q l :
  reads h q l ->
  match trans.quaternion_matrix l with
  | Ok m => exists h1,
      trans_quaternion_matrix q h = (Ok (length h1), h1 ++ [Mat m])
  | Raise e => exists h1, trans_quaternion_matrix q h = (Raise e, h1)
  end.
Proof.
  intros H. unfold trans_quaternion_matrix, trans.quaternion_matrix.
  rewrite (@mbind_run _ _ _ _ _ _ _ (run_np_copy (reads_slice0 4 H))).
  set (l4 := firstn 4 l).
  rewrite (@mbind_run _ _ _ _ _ _ _ (run_np_dot (reads_new h l4) (reads_new h l4))).
  destruct (s_ltb (dot l4 l4) _).
  - eexists. reflexivity.
  - rewrite (@mbind_run _ _ _ _ _ _ _ (run_np_imul_new h l4 _)).
    set (k := s_sqrt _).
    rewrite <- (length_vscale l4 k).
    rewrite (@mbind_run _ _ _ _ _ _ _
               (run_np_outer (reads_new h (vscale l4 k)) (reads_new h (vscale l4 k)))).
    set (h1 := h ++ [Vec (vscale l4 k)]).
    set (Q := outer (vscale l4 k) (vscale l4 k)).
    do 9 (rewrite (@mbind_run _ _ _ _ _ _ _ (run_np_getitem2_last h1 Q _ _));
          match goal with
          | |- context [getitem2 Q ?i ?j] =>
              destruct (getitem2 Q i j) as [? | ?];
              [cbn [bind] | eexists; reflexivity]
          end).
    eexists. reflexivity.
Qed.

Lemma quaternion_matrix_agrees h q l :
  reads h q l ->
  matrix_of (quaternion_matrix q h) = geometry_helpers.quaternion_matrix l.
Proof.
  intros H. unfold quaternion_matrix, geometry_helpers.quaternion_matrix.
  pose proof (run_trans_quaternion_matrix H) as Hrun.
  destruct (trans.quaternion_matrix l) as [m | e]; destruct Hrun as [h1 Hrun].
  - rewrite (@mbind_run _ _ _ _ _ _ _ Hrun).
    rewrite (@mbind_run _ _ _ _ _ _ _ (run_get_mat_last h1 m)).
    rewrite (@mbind_run _ _ _ _ _ _ _ (run_np_getitem2_last h1 m 3 3)).
    cbn [bind].
    destruct (getitem2 m 3 3) as [d | e]; [| reflexivity].
    apply (matrix_of_new (h1 ++ [Mat m])).
  - rewrite (@mbind_run _ _ _ _ _ _ _ Hrun). reflexivity.
Qed.

Lemma run_np_item_one_axis h v l (i : nat) :
  reads h v l ->
  np_item OneAxis v i h
  = (match getitem l i with Ok x => Ok (Num x) | Raise e => Raise e end, h).
Proof.
  intros H. unfold np_item.
  rewrite (@mbind_run _ _ _ _ _ _ _ (run_np_getitem i H)).
  destruct (getitem l i); reflexivity.
Qed.

(** On numbers the library call writes nothing but its result. *)
Lemma run_quaternion_from_euler {TC : Circular T} h (ai aj ak : T) :
  quaternion_from_euler (Num ai) (Num aj) (Num ak) h
  = (Ok (View (length h) 0
           (length (trans.quaternion_from_euler ai aj ak))),
     h ++ [Vec (trans.quaternion_from_euler ai aj ak)]).
Proof. reflexivity. Qed.

(** On an array of one axis, [euler_to_quat] over the store returns the
    message, or raises the exception, that [euler_to_quat] on values gives
    on the array its argument shows. *)
Lemma euler_to_quat_agrees {TC : Circular T} h v l :
  reads h v l ->
  fst (euler_to_quat OneAxis v h) = geometry_helpers.euler_to_quat l.
Proof.
  intros H. unfold euler_to_quat, geometry_helpers.euler_to_quat.
  do 3 (match goal with
        | |- context [np_item OneAxis v ?i] =>
            rewrite (@mbind_run _ _ _ _ _ _ _ (run_np_item_one_axis i H));
            destruct (getitem l i) as [? | ?]; [cbn [bind] | reflexivity]
        end).
  rewrite (@mbind_run _ _ _ _ _ _ _ (run_quaternion_from_euler h _ _ _)).
  do 4 (match goal with
        | |- context [np_getitem _ ?i] =>
            rewrite (@mbind_run _ _ _ _ _ _ _
                       (run_np_getitem i (reads_new h _)));
            match goal with
            | |- context [getitem ?q i] =>
                destruct (getitem q i) as [? | ?];
                [cbn [bind] | reflexivity]
            end
        end).
  reflexivity.
Qed.

End Refinement.

(** The agreement on [(3, 4, 0)] clipped to [[1, 2]]. *)
Lemma clip_norm_refines_345 :
  value_of (clip_norm (View 0 0 3) 1%float 2%float [Vec [3; 4; 0]%float])
  = Ok (geometry_helpers.clip_norm [3; 4; 0]%float 1%float 2%float).
Proof.
  apply clip_norm_refines. exists [3; 4; 0]%float. split; reflexivity.
Defined.

(** The agreement on [v = (1, 2, 3, 0)] and the identity quaternion. *)
Lemma rotate_vect_by_quat_refines_identity :
  value_of (rotate_vect_by_quat (View 0 0 4) (View 1 0 4)
              [Vec [1; 2; 3; 0]%float; Vec [0; 0; 0; 1]%float])
  = geometry_helpers.rotate_vect_by_quat [1; 2; 3; 0]%float
                                         [0; 0; 0; 1]%float.
Proof.
  apply rotate_vect_by_quat_refines.
  - exists [1; 2; 3; 0]%float. split; reflexivity.
  - exists [0; 0; 0; 1]%float. split; reflexivity.
Defined.

(** The agreement on the zero 3-vector. *)
Lemma normalize_refines_zero :
  value_of (normalize (View 0 0 3) [Vec [0; 0; 0]%float])
  = Ok (geometry_helpers.normalize [0; 0; 0]%float).
Proof.
  apply normalize_refines. exists [0; 0; 0]%float. split; reflexivity.
Defined.

(** The agreement on the quaternion [(1, 0, 0, 1)], in exact arithmetic. *)
Lemma quat_to_rotvec_refines_1001 :
  value_of (quat_to_rotvec (View 0 0 4) [Vec [1; 0; 0; 1]%R])
  = geometry_helpers.quat_to_rotvec [1; 0; 0; 1]%R.
Proof.
  apply quat_to_rotvec_refines. exists [1; 0; 0; 1]%R. split; reflexivity.
Defined.



(** X30.  Whatever the store and the array passed, and whether the call
    returns or raises, every buffer that existed before a call of
    [quaternion_matrix] holds the same elements after it: the scaling
    [q *= sqrt(2 / nq)] of the library acts on a copy.  The matrix returned
    lives in a buffer allocated by the call, and it is the matrix that
    [quaternion_matrix] on values computes from the array the argument
    shows. *)
Theorem quaternion_matrix_on_store :
  forall (T : Type) (ST : Scalar T) (h : heap T) (q : view),
    unchanged h (snd (quaternion_matrix q h))
    /\ (forall r, fst (quaternion_matrix q h) = Ok r -> fresh_ref h r)
    /\ (forall l, reads h q l ->
        matrix_of (quaternion_matrix q h)
        = geometry_helpers.quaternion_matrix l).
Proof.
  intros. repeat split.
  - eapply keeps_store, keeps_quaternion_matrix.
  - eapply keeps_value, keeps_quaternion_matrix.
  - intros l H. apply (quaternion_matrix_agrees H).
Qed.

End InPlaceFacts.
